(** * LibVMI physical-memory page cache (libvmi/driver/memory_cache.c)

    A shallow embedding of the page cache and of its single-slot fallback,
    followed by the properties of the cache that the specification states.

    The cache talks to three things outside the file: the host's fetch and
    release callbacks, the wall clock, and GLib's hash table and list.  The
    callbacks are kept as a trace of calls, the clock is an argument of the
    operation that reads it, and the GLib functions are modelled after their
    reference manual. *)

From Equations Require Import Equations.
From stdpp Require Import gmap list numbers sorting.

Set Default Proof Using "Type".

(** ** Machine integers

    Unsigned C integers are values of [N]; the operations that can leave the
    range are written with their reduction modulo a power of two.  [time_t]
    is signed and is a [Z]. *)

Definition add64 (a b : N) : N := ((a + b) mod 2 ^ 64)%N.
Definition sub64 (a b : N) : N := ((a + 2 ^ 64 - b) mod 2 ^ 64)%N.
Definition not64 (a : N) : N := N.lnot a 64.
Definition add32 (a b : N) : N := ((a + b) mod 2 ^ 32)%N.
Definition sub32 (a b : N) : N := ((a + 2 ^ 32 - b) mod 2 ^ 32)%N.

(** ** Data model *)

(** [struct memory_cache_entry].  [data] is the buffer pointer, [0] is NULL. *)
Module entry.
Record t : Type := mk {
    paddr : N;          (* addr_t *)
    length : N;         (* uint32_t *)
    last_updated : Z;   (* time_t *)
    last_used : Z;      (* time_t *)
    data : N            (* void * *)
  }.
Definition with_data (d : N) (e : t) : t :=
    mk (paddr e) (length e) (last_updated e) (last_used e) d.
Definition with_last_updated (x : Z) (e : t) : t :=
    mk (paddr e) (length e) x (last_used e) (data e).
Definition with_last_used (x : Z) (e : t) : t :=
    mk (paddr e) (length e) (last_updated e) x (data e).
End entry.

(** The fields of [struct vmi_instance] that memory_cache.c reads or writes.
    [memory_cache] is the [GHashTable *] ([None] is NULL), keyed by the 64-bit
    physical address; [memory_cache_lru] is the [GList *] of key copies, head
    first, the empty list being NULL.  The last two fields are the slot of the
    build without ENABLE_PAGE_CACHE. *)
Module vmi.
Record t : Type := mk {
    page_size : N;
    size : N;
    hvm : bool;
    memory_cache : option (gmap N entry.t);
    memory_cache_lru : list N;
    memory_cache_age : N;
    memory_cache_size : N;
    memory_cache_size_max : N;
    last_used_page_key : N;
    last_used_page : N
  }.
Definition with_memory_cache (x : option (gmap N entry.t)) (v : t) : t :=
    mk (page_size v) (size v) (hvm v) x (memory_cache_lru v)
       (memory_cache_age v) (memory_cache_size v) (memory_cache_size_max v)
       (last_used_page_key v) (last_used_page v).
Definition with_memory_cache_lru (x : list N) (v : t) : t :=
    mk (page_size v) (size v) (hvm v) (memory_cache v) x
       (memory_cache_age v) (memory_cache_size v) (memory_cache_size_max v)
       (last_used_page_key v) (last_used_page v).
Definition with_memory_cache_age (x : N) (v : t) : t :=
    mk (page_size v) (size v) (hvm v) (memory_cache v) (memory_cache_lru v)
       x (memory_cache_size v) (memory_cache_size_max v)
       (last_used_page_key v) (last_used_page v).
Definition with_memory_cache_size (x : N) (v : t) : t :=
    mk (page_size v) (size v) (hvm v) (memory_cache v) (memory_cache_lru v)
       (memory_cache_age v) x (memory_cache_size_max v)
       (last_used_page_key v) (last_used_page v).
Definition with_memory_cache_size_max (x : N) (v : t) : t :=
    mk (page_size v) (size v) (hvm v) (memory_cache v) (memory_cache_lru v)
       (memory_cache_age v) (memory_cache_size v) x
       (last_used_page_key v) (last_used_page v).
Definition with_last_used_page_key (x : N) (v : t) : t :=
    mk (page_size v) (size v) (hvm v) (memory_cache v) (memory_cache_lru v)
       (memory_cache_age v) (memory_cache_size v) (memory_cache_size_max v)
       x (last_used_page v).
Definition with_last_used_page (x : N) (v : t) : t :=
    mk (page_size v) (size v) (hvm v) (memory_cache v) (memory_cache_lru v)
       (memory_cache_age v) (memory_cache_size v) (memory_cache_size_max v)
       (last_used_page_key v) x.
End vmi.

(** What the host sees of the cache: the calls of the two callbacks, oldest
    first.  [Fetch paddr length buf] is a call of the fetch callback that
    returned [buf]; [Release buf length] is a call of the release callback. *)
Inductive event : Type :=
  | Fetch (paddr length buf : N)
  | Release (buf length : N).

(** A fetch callback is a function of the instance, of the calls made so far
    and of its two arguments.  A release callback returns nothing, and the
    call itself is all that is observed of it. *)
Definition get_data_t : Type := vmi.t → list event → N → N → N.
Inductive release_data_t : Type := host_release.

(** The instance, the two file-scope callback pointers ([None] is NULL) and
    the trace. *)
Record state : Type := mk_state {
  inst : vmi.t;
  get_data_callback : option get_data_t;
  release_data_callback : option release_data_t;
  trace : list event
}.

Definition with_inst (v : vmi.t) (s : state) : state :=
  mk_state v (get_data_callback s) (release_data_callback s) (trace s).
Definition with_trace (tr : list event) (s : state) : state :=
  mk_state (inst s) (get_data_callback s) (release_data_callback s) tr.

(** ** State and fault monad

    A computation either returns a value and a new state or faults; the only
    fault in this file is a call through a NULL callback pointer. *)
Definition M (A : Type) : Type := state → option (A * state).

Definition ret {A} (a : A) : M A := λ s, Some (a, s).
Definition bind {A B} (m : M A) (k : A → M B) : M B :=
  λ s, match m s with
       | Some (a, s') => k a s'
       | None => None
       end.
Definition get_vmi : M vmi.t := λ s, Some (inst s, s).
Definition update_vmi (f : vmi.t → vmi.t) : M unit :=
  λ s, Some (tt, with_inst (f (inst s)) s).

Notation "x <- m ;; k" := (bind m (λ x, k))
  (at level 100, m at next level, right associativity).
Notation "m ;; k" := (bind m (λ _, k))
  (at level 100, right associativity).

Fixpoint for_each {A} (f : A → M unit) (l : list A) : M unit :=
  match l with
  | [] => ret tt
  | x :: l' => f x ;; for_each f l'
  end.

(** ** Callbacks *)

(** [get_memory_data]: [return get_data_callback(vmi, paddr, length);] *)
Definition get_memory_data (paddr length : N) : M N :=
  λ s, match get_data_callback s with
       | Some get_data =>
           let buf := get_data (inst s) (trace s) paddr length in
           Some (buf, with_trace (trace s ++ [Fetch paddr length buf]) s)
       | None => None
       end.

(** A call [release_data_callback(buf, length)]. *)
Definition release_data (buf length : N) : M unit :=
  λ s, match release_data_callback s with
       | Some host_release =>
           Some (tt, with_trace (trace s ++ [Release buf length]) s)
       | None => None
       end.

(** ** GLib

    [GList]: a list is the sequence of its elements and a link of a list is
    its position in it, [None] being the NULL link.  Unlinking a link gives
    the remaining list and the link as a one-element list of its own. *)

Definition g_list_last (l : list N) : option nat :=
  match l with
  | [] => None
  | _ :: _ => Some (Nat.pred (base.length l))
  end.

Definition g_list_remove_link (l : list N) (link : option nat)
    : list N * list N :=
  match link with
  | None => (l, [])
  | Some i =>
      match l !! i with
      | Some k => (delete i l, [k])
      | None => (l, [])
      end
  end.

Definition g_list_concat (l1 l2 : list N) : list N := l1 ++ l2.
Definition g_list_prepend (l : list N) (k : N) : list N := k :: l.

(** [g_list_find_custom (list, data, func)]: the first link of [list] for
    which [func (element, data)] is 0 ("It should return 0 when the desired
    element is found"), NULL when there is none. *)
Fixpoint g_list_find_custom (l : list N) (data : N) (func : N → N → Z)
    : option nat :=
  match l with
  | [] => None
  | x :: l' =>
      if (func x data =? 0)%Z then Some 0%nat
      else S <$> g_list_find_custom l' data func
  end.

(** [g_int64_equal (v1, v2)]: "TRUE if the two keys match", a [gboolean],
    which is an [int]: 1 for equal keys, 0 otherwise. *)
Definition g_int64_equal (v1 v2 : N) : Z :=
  if (v1 =? v2)%N then 1%Z else 0%Z.

(** ** The page cache (ENABLE_PAGE_CACHE == 1) *)

Module PageCache.

(** [memory_cache_entry_free], the value destructor of the hash table. *)
Definition memory_cache_entry_free (data : option entry.t) : M unit :=
  match data with
  | Some e => release_data (entry.data e) (entry.length e)
  | None => ret tt
  end.

(** The one hash table of the file is [vmi->memory_cache], created with
    [g_free] for its keys and [memory_cache_entry_free] for its values:
    whenever an entry leaves the table the value destructor runs on it.
    Every function returns at once on a NULL table. *)

Definition g_hash_table_lookup (tbl : option (gmap N entry.t)) (key : N)
    : option entry.t :=
  match tbl with
  | Some m => m !! key
  | None => None
  end.

Definition g_hash_table_remove (key : N) : M unit :=
  v <- get_vmi ;;
  match vmi.memory_cache v with
  | None => ret tt
  | Some m =>
      match m !! key with
      | None => ret tt
      | Some e =>
          update_vmi (vmi.with_memory_cache (Some (base.delete key m))) ;;
          memory_cache_entry_free (Some e)
      end
  end.

(** An insertion under a key that is already there keeps the old key and
    destroys the old value. *)
Definition g_hash_table_insert (key : N) (value : entry.t) : M unit :=
  v <- get_vmi ;;
  match vmi.memory_cache v with
  | None => ret tt
  | Some m =>
      update_vmi (vmi.with_memory_cache (Some (<[key := value]> m))) ;;
      match m !! key with
      | None => ret tt
      | Some old => memory_cache_entry_free (Some old)
      end
  end.

(** [g_hash_table_destroy]: every entry is removed, in the table's own
    order (taken here as the order of [map_to_list]), and the table is gone. *)
Definition g_hash_table_destroy : M unit :=
  v <- get_vmi ;;
  match vmi.memory_cache v with
  | None => ret tt
  | Some m =>
      update_vmi (vmi.with_memory_cache (Some ∅)) ;;
      for_each (λ ke, memory_cache_entry_free (Some ke.2)) (map_to_list m)
  end.

(** An entry is reached through the pointer that the table holds, so a write
    to a field of the entry is a write to the table's value under the key
    the entry was found with. *)
Definition write_entry (key : N) (e : entry.t) : M unit :=
  update_vmi (λ v,
    vmi.with_memory_cache (<[key := e]> <$> vmi.memory_cache v) v).

(** [remove_entry], the callback of [g_list_foreach] in [clean_cache]; the
    [cache] argument is [vmi->memory_cache]. *)
Definition remove_entry (key : N) : M unit :=
  g_hash_table_remove key.

(** The guard and the body of the [while] loop of [clean_cache], on the
    instance and the local [list] (here [lst]). *)
Definition clean_cache_guard (v : vmi.t) : bool :=
  (vmi.memory_cache_size_max v / 2 <? vmi.memory_cache_size v)%N.

Definition clean_cache_body (v : vmi.t) (lst : list N) : vmi.t * list N :=
  let last := g_list_last (vmi.memory_cache_lru v) in
  let '(lru, last_link) := g_list_remove_link (vmi.memory_cache_lru v) last in
  let v1 := vmi.with_memory_cache_lru lru v in
  let list1 := g_list_concat lst last_link in
  let v2 := vmi.with_memory_cache_size
              (sub32 (vmi.memory_cache_size v1) 1) v1 in
  (v2, list1).

(** [k] turns of the loop body. *)
Definition clean_cache_turns (k : nat) (v : vmi.t) (lst : list N)
    : vmi.t * list N :=
  Nat.iter k (λ p, clean_cache_body p.1 p.2) (v, lst).

Definition inspect {A} (a : A) : {b | a = b} := exist _ a eq_refl.

(** The loop: [while (size > size_max / 2) { body }].  The counter is
    positive whenever the guard holds, so it goes down at every turn. *)
Equations? clean_cache_loop (v : vmi.t) (lst : list N) : vmi.t * list N
    by wf (N.to_nat (vmi.memory_cache_size v)) lt :=
  clean_cache_loop v lst with inspect (clean_cache_guard v) := {
    | exist _ true _ =>
        clean_cache_loop (clean_cache_body v lst).1 (clean_cache_body v lst).2;
    | exist _ false _ => (v, lst) }.
Proof.
  unfold clean_cache_guard in *. unfold clean_cache_body.
  destruct (g_list_remove_link _ _) as [lru last_link]. cbn.
  set (n := vmi.memory_cache_size v) in *.
  set (h := (vmi.memory_cache_size_max v / 2)%N) in *.
  assert (0 < n)%N by (apply N.ltb_lt in e; lia).
  unfold sub32. destruct (decide (n < 2 ^ 32)%N).
  - replace (n + 2 ^ 32 - 1)%N with (n - 1 + 1 * 2 ^ 32)%N by lia.
    rewrite N.Div0.mod_add, N.mod_small by lia. lia.
  - pose proof (N.mod_upper_bound (n + 2 ^ 32 - 1) (2 ^ 32)). lia.
Qed.

(** [clean_cache]: detach tail links of the lru list while the counter is
    above half the maximum, then remove the detached keys from the table. *)
Definition clean_cache : M unit :=
  v <- get_vmi ;;
  let '(v', lst) := clean_cache_loop v [] in
  update_vmi (λ _, v') ;;
  for_each remove_entry lst.

(** [validate_and_return_data]. [now] is the result of [time(NULL)] and
    [key] the key [entry] was looked up with.  The difference of the two
    [time_t] values and its comparison with the age are taken in [Z]. *)
Definition validate_and_return_data (now : Z) (key : N) (entry : entry.t)
    : M N :=
  v <- get_vmi ;;
  if negb (vmi.memory_cache_age v =? 0)%N
     && (Z.of_N (vmi.memory_cache_age v) <? now - entry.last_updated entry)%Z
  then
    release_data (entry.data entry) (entry.length entry) ;;
    buf <- get_memory_data (entry.paddr entry) (entry.length entry) ;;
    let entry1 := entry.with_last_updated now (entry.with_data buf entry) in
    v <- get_vmi ;;
    let lru_entry :=
      g_list_find_custom (vmi.memory_cache_lru v) (entry.paddr entry)
        g_int64_equal in
    let '(lru, link) := g_list_remove_link (vmi.memory_cache_lru v) lru_entry in
    update_vmi (vmi.with_memory_cache_lru (g_list_concat link lru)) ;;
    let entry2 := entry.with_last_used now entry1 in
    write_entry key entry2 ;;
    ret (entry.data entry2)
  else
    let entry1 := entry.with_last_used now entry in
    write_entry key entry1 ;;
    ret (entry.data entry1).

(** [create_new_entry]; [None] is the NULL result.  [paddr + length - 1] is
    unsigned 64-bit arithmetic. *)
Definition create_new_entry (now : Z) (paddr length : N)
    : M (option entry.t) :=
  v <- get_vmi ;;
  if vmi.hvm v && (vmi.size v <? sub64 (add64 paddr length) 1)%N then
    ret None
  else
    buf <- get_memory_data paddr length ;;
    let entry := entry.mk paddr length now now buf in
    v <- get_vmi ;;
    (if (vmi.memory_cache_size_max v <=? vmi.memory_cache_size v)%N
     then clean_cache else ret tt) ;;
    ret (Some entry).

(** [paddr & ~(((addr_t) vmi->page_size) - 1)] *)
Definition paddr_aligned (v : vmi.t) (paddr : N) : N :=
  N.land paddr (not64 (sub64 (vmi.page_size v) 1)).

Section Init.

(** The compile-time capacity, defined outside memory_cache.c. *)
Variable MAX_PAGE_CACHE_SIZE : N.

(** [memory_cache_init].  [age_limit] is an [unsigned long]; the field it is
    assigned to is 32 bits wide, as the two counters are, so the high bits
    are lost. *)
Definition memory_cache_init (get_data : get_data_t)
    (release_data : release_data_t) (age_limit : N) : M unit :=
  λ s,
    let v := inst s in
    let v := vmi.with_memory_cache (Some ∅) v in
    let v := vmi.with_memory_cache_lru [] v in
    let v := vmi.with_memory_cache_age (age_limit mod 2 ^ 32)%N v in
    let v := vmi.with_memory_cache_size 0 v in
    let v := vmi.with_memory_cache_size_max MAX_PAGE_CACHE_SIZE v in
    Some (tt, mk_state v (Some get_data) (Some release_data) (trace s)).

End Init.

(** [memory_cache_insert]; the result [0] is NULL. *)
Definition memory_cache_insert (now : Z) (paddr : N) : M N :=
  v <- get_vmi ;;
  if negb (paddr =? paddr_aligned v paddr)%N then ret 0%N
  else
    match g_hash_table_lookup (vmi.memory_cache v) paddr with
    | Some entry => validate_and_return_data now paddr entry
    | None =>
        created <- create_new_entry now paddr (vmi.page_size v) ;;
        match created with
        | None => ret 0%N
        | Some entry =>
            g_hash_table_insert paddr entry ;;
            update_vmi (λ v, vmi.with_memory_cache_lru
                               (g_list_prepend (vmi.memory_cache_lru v) paddr) v) ;;
            update_vmi (λ v, vmi.with_memory_cache_size
                               (add32 (vmi.memory_cache_size v) 1) v) ;;
            ret (entry.data entry)
        end
    end.

Definition memory_cache_remove (paddr : N) : M unit :=
  v <- get_vmi ;;
  if negb (paddr =? paddr_aligned v paddr)%N then ret tt
  else g_hash_table_remove paddr.

Definition memory_cache_destroy : M unit :=
  update_vmi (vmi.with_memory_cache_size_max 0) ;;
  v <- get_vmi ;;
  (match vmi.memory_cache_lru v with
   | [] => ret tt
   | _ :: _ => update_vmi (vmi.with_memory_cache_lru [])
   end) ;;
  (match vmi.memory_cache v with
   | None => ret tt
   | Some _ =>
       g_hash_table_destroy ;;
       update_vmi (vmi.with_memory_cache None)
   end) ;;
  update_vmi (vmi.with_memory_cache_age 0) ;;
  update_vmi (vmi.with_memory_cache_size 0) ;;
  update_vmi (vmi.with_memory_cache_size_max 0) ;;
  λ s, Some (tt, mk_state (inst s) None None (trace s)).

End PageCache.

(** ** The single slot (ENABLE_PAGE_CACHE != 1) *)

Module SingleSlot.

Definition memory_cache_init (get_data : get_data_t)
    (release_data : release_data_t) (age_limit : N) : M unit :=
  λ s, Some (tt, mk_state (inst s) (Some get_data) (Some release_data)
                   (trace s)).

Definition memory_cache_insert (paddr : N) : M N :=
  v <- get_vmi ;;
  if (paddr =? vmi.last_used_page_key v)%N
     && negb (vmi.last_used_page v =? 0)%N
  then ret (vmi.last_used_page v)
  else
    (if negb (vmi.last_used_page_key v =? 0)%N
        && negb (vmi.last_used_page v =? 0)%N
     then release_data (vmi.last_used_page v) (vmi.page_size v)
     else ret tt) ;;
    buf <- get_memory_data paddr (vmi.page_size v) ;;
    update_vmi (vmi.with_last_used_page buf) ;;
    update_vmi (vmi.with_last_used_page_key paddr) ;;
    ret buf.

Definition memory_cache_remove (paddr : N) : M unit :=
  v <- get_vmi ;;
  if (paddr =? vmi.last_used_page_key v)%N
     && negb (vmi.last_used_page v =? 0)%N
  then release_data (vmi.last_used_page v) (vmi.page_size v)
  else ret tt.

Definition memory_cache_destroy : M unit :=
  v <- get_vmi ;;
  (if negb (vmi.last_used_page_key v =? 0)%N
      && negb (vmi.last_used_page v =? 0)%N
   then release_data (vmi.last_used_page v) (vmi.page_size v)
   else ret tt) ;;
  update_vmi (vmi.with_last_used_page_key 0) ;;
  update_vmi (vmi.with_last_used_page 0) ;;
  λ s, Some (tt, mk_state (inst s) None None (trace s)).

End SingleSlot.

(** ** Driving the cache *)

(** A host with nothing set up yet: NULL callbacks and an empty trace. *)
Definition boot (v : vmi.t) : state := mk_state v None None [].

(** The calls a host makes between [memory_cache_init] and
    [memory_cache_destroy].  An insert carries the time it is made at. *)
Inductive call : Type :=
  | Insert (now : Z) (paddr : N)
  | Remove (paddr : N).

Definition run_call (c : call) : M unit :=
  match c with
  | Insert now paddr => PageCache.memory_cache_insert now paddr ;; ret tt
  | Remove paddr => PageCache.memory_cache_remove paddr
  end.

Definition run_calls (calls : list call) : M unit := for_each run_call calls.

(** The buffers the trace shows fetched and released, each with the length
    of the call, and the buffers the table holds. *)
Definition fetched (tr : list event) : list (N * N) :=
  omap (λ ev, match ev with
              | Fetch _ len buf => Some (buf, len)
              | Release _ _ => None
              end) tr.

Definition released (tr : list event) : list (N * N) :=
  omap (λ ev, match ev with
              | Fetch _ _ _ => None
              | Release buf len => Some (buf, len)
              end) tr.

Definition resident (v : vmi.t) : list (N * N) :=
  match vmi.memory_cache v with
  | Some m => (λ ke, (entry.data ke.2, entry.length ke.2)) <$> map_to_list m
  | None => []
  end.

(** Two hosts for the examples: every fetch of the first returns a buffer of
    its own, every fetch of the second fails. *)
Definition fresh_buffers : get_data_t :=
  λ _ tr _ _, (0xB000 + N.of_nat (base.length tr))%N.
Definition failing_fetch : get_data_t := λ _ _ _ _, 0%N.

(** An instance as the enclosing library hands it over: 4 KiB pages, the
    cache fields not yet set. *)
Definition guest (hvm : bool) (size : N) : vmi.t :=
  vmi.mk 0x1000 size hvm None [] 0 0 0 0 0.

(** ** The effect of an eviction

    The calls of the release callback made while the keys of [lst] are
    removed in turn from a table [m], and the table that is left. *)
Fixpoint evict_trace (m : gmap N entry.t) (lst : list N) : list event :=
  match lst with
  | [] => []
  | k :: lst' =>
      match m !! k with
      | Some e =>
          Release (entry.data e) (entry.length e)
            :: evict_trace (base.delete k m) lst'
      | None => evict_trace m lst'
      end
  end.

Definition evict_table (m : gmap N entry.t) (lst : list N)
    : gmap N entry.t :=
  foldl (λ m k, base.delete k m) m lst.

(** The instance and the detached keys after the capacity check of
    [create_new_entry]. *)
Definition capacity_check (v : vmi.t) : vmi.t * list N :=
  if (vmi.memory_cache_size_max v <=? vmi.memory_cache_size v)%N
  then PageCache.clean_cache_loop v []
  else (v, []).

(** The bounds check of [create_new_entry]. *)
Definition out_of_range (v : vmi.t) (paddr length : N) : bool :=
  vmi.hvm v && (vmi.size v <? sub64 (add64 paddr length) 1)%N.

(** The staleness test of [validate_and_return_data]. *)
Definition stale (v : vmi.t) (now : Z) (e : entry.t) : bool :=
  negb (vmi.memory_cache_age v =? 0)%N
  && (Z.of_N (vmi.memory_cache_age v) <? now - entry.last_updated e)%Z.

(** The number of turns the loop of [clean_cache] makes. *)
Definition clean_cache_count (v : vmi.t) : nat :=
  N.to_nat (vmi.memory_cache_size v - vmi.memory_cache_size_max v / 2).

(** A cache whose counter says five while the lru list holds one key. *)
Definition short_lru : vmi.t :=
  vmi.mk 0x1000 0 false (Some ∅) [0x7000%N] 0 5 4 0 0.

(** The buffers of a table, each with the length of its entry. *)
Definition buffers (m : gmap N entry.t) : list (N * N) :=
  (λ ke, (entry.data ke.2, entry.length ke.2)) <$> map_to_list m.

(** A cache in use: both callbacks are set and the table exists. *)
Definition installed (s : state) : Prop :=
  is_Some (get_data_callback s)
  ∧ is_Some (release_data_callback s)
  ∧ is_Some (vmi.memory_cache (inst s)).

(** Every fetched buffer is either released, once, or held by the table. *)
Definition balanced (s : state) : Prop :=
  fetched (trace s) ≡ₚ released (trace s) ++ resident (inst s).

(** A life of the cache up to, and without, its [memory_cache_destroy]. *)
Definition session (MAX_PAGE_CACHE_SIZE : N) (get_data : get_data_t)
    (age_limit : N) (calls : list call) : M unit :=
  PageCache.memory_cache_init MAX_PAGE_CACHE_SIZE get_data host_release
    age_limit ;;
  run_calls calls.

(** A cache right after [memory_cache_init] on [guest false 0], with a
    capacity of four pages. *)
Definition empty_cache (get_data : get_data_t) (age_limit : N) : state :=
  mk_state (vmi.mk 0x1000 0 false (Some ∅) [] age_limit 0 4 0 0)
    (Some get_data) (Some host_release) [].

(** A single slot that holds the buffer [page] of the page at [key]. *)
Definition slot (key page : N) : state :=
  mk_state (vmi.mk 0x1000 0 false None [] 0 0 0 key page)
    (Some fresh_buffers) (Some host_release) [Fetch key 0x1000 page].

(** ** Coherence of table, lru list and counter

    The table and the lru list hold the same keys, the list holds each once,
    and the counter is the number of keys; the counter is at most the
    capacity (or one, for a capacity of zero), which fits 32 bits. *)
Definition coherent (v : vmi.t) (m : gmap N entry.t) : Prop :=
  vmi.memory_cache v = Some m
  ∧ NoDup (vmi.memory_cache_lru v)
  ∧ (∀ k, k ∈ vmi.memory_cache_lru v ↔ is_Some (m !! k))
  ∧ vmi.memory_cache_size v = N.of_nat (base.length (vmi.memory_cache_lru v))
  ∧ (vmi.memory_cache_size v ≤ N.max 1 (vmi.memory_cache_size_max v))%N
  ∧ (vmi.memory_cache_size_max v < 2 ^ 32)%N.

(** The keys that a capacity check keeps in the lru list of a coherent
    cache and the keys it detaches, in the order they are detached. *)
Definition kept (v : vmi.t) : list N :=
  if (vmi.memory_cache_size_max v <=? vmi.memory_cache_size v)%N
  then take (N.to_nat (vmi.memory_cache_size_max v / 2))
            (vmi.memory_cache_lru v)
  else vmi.memory_cache_lru v.

Definition gone (v : vmi.t) : list N :=
  if (vmi.memory_cache_size_max v <=? vmi.memory_cache_size v)%N
  then reverse (drop (N.to_nat (vmi.memory_cache_size_max v / 2))
                     (vmi.memory_cache_lru v))
  else [].

(** The buffer and length of the entry of a key, if it has one. *)
Definition buffer_of (m : gmap N entry.t) (k : N) : option (N * N) :=
  (λ e, (entry.data e, entry.length e)) <$> m !! k.

(** ** Order of the lru list

    The keys of the lru list, read from the head, have entries whose stamp
    [f] does not increase. *)
Definition lru_descending (f : entry.t → Z) (v : vmi.t) : Prop :=
  ∀ m i j a b ea eb,
    vmi.memory_cache v = Some m →
    (i < j)%nat →
    vmi.memory_cache_lru v !! i = Some a →
    vmi.memory_cache_lru v !! j = Some b →
    m !! a = Some ea → m !! b = Some eb →
    (f eb ≤ f ea)%Z.

(** A session of inserts only, given as the time and the address of each. *)
Definition inserts (calls : list (Z * N)) : list call :=
  (λ c, Insert c.1 c.2) <$> calls.

(** A cache in use with a coherent state, freshness checks switched off,
    and the lru list in descending order of [last_updated]. *)
Definition creation_ordered (s : state) (m : gmap N entry.t) : Prop :=
  is_Some (get_data_callback s)
  ∧ is_Some (release_data_callback s)
  ∧ coherent (inst s) m
  ∧ vmi.memory_cache_age (inst s) = 0%N
  ∧ lru_descending entry.last_updated (inst s).

(** ** Filling a fresh cache *)

(** The fields of the instance that the alignment and bounds checks read. *)
Definition same_guest (v v0 : vmi.t) : Prop :=
  vmi.page_size v = vmi.page_size v0
  ∧ vmi.size v = vmi.size v0
  ∧ vmi.hvm v = vmi.hvm v0.

(** A page that [memory_cache_insert] accepts on a miss. *)
Definition cacheable (v : vmi.t) (p : N) : Prop :=
  p = PageCache.paddr_aligned v p
  ∧ out_of_range v p (vmi.page_size v) = false.

(** A cache into which the pages [P] went, oldest first, with no eviction
    yet: the lru list is [P] backwards, nothing was released, and the
    buffers fetched are, in order, those of the entries of [P]. *)
Definition filled (v0 : vmi.t) (P : list N) (s : state) (m : gmap N entry.t)
    : Prop :=
  is_Some (get_data_callback s)
  ∧ is_Some (release_data_callback s)
  ∧ coherent (inst s) m
  ∧ same_guest (inst s) v0
  ∧ vmi.memory_cache_lru (inst s) = reverse P
  ∧ released (trace s) = []
  ∧ Forall2 (λ p b, buffer_of m p = Some b) P (fetched (trace s)).

(** One insert per page, at the time [now_of] gives for it. *)
Definition insert_pages (now_of : N → Z) (pages : list N) : list call :=
  (λ p, Insert (now_of p) p) <$> pages.

(** A cache right after [memory_cache_init] on a hardware-virtualized guest
    of [size] bytes, with a capacity of four pages. *)
Definition empty_hvm_cache (size : N) : state :=
  mk_state (vmi.mk 0x1000 size true (Some ∅) [] 0 0 4 0 0)
    (Some fresh_buffers) (Some host_release) [].

(** A cache that holds page 0x1000, fetched at time 0 into buffer 0xB000,
    on [guest false 0] with a capacity of four pages. *)
Definition warm_cache (age_limit : N) : state :=
  mk_state
    (vmi.mk 0x1000 0 false
       (Some {[ 0x1000%N := entry.mk 0x1000 0x1000 0 0 0xB000 ]})
       [0x1000%N] age_limit 1 4 0 0)
    (Some fresh_buffers) (Some host_release) [Fetch 0x1000 0x1000 0xB000].

(** ** Counting

    What stays true of table, lru list and counter whatever the host calls:
    every key of the table is in the lru list, the counter is the length of
    the list, and it is at most the capacity (or one, for a capacity of
    zero), which fits 32 bits. *)
Definition counted (v : vmi.t) (m : gmap N entry.t) : Prop :=
  vmi.memory_cache v = Some m
  ∧ (∀ k, is_Some (m !! k) → k ∈ vmi.memory_cache_lru v)
  ∧ vmi.memory_cache_size v = N.of_nat (base.length (vmi.memory_cache_lru v))
  ∧ (vmi.memory_cache_size v ≤ N.max 1 (vmi.memory_cache_size_max v))%N
  ∧ (vmi.memory_cache_size_max v < 2 ^ 32)%N.

(** ** Well-formed calls

    A callback call that the cache may make for a guest [v0]: a fetch of a
    cacheable page with the page size as its length, or a release with
    the page size as its length. *)
Definition event_ok (v0 : vmi.t) (ev : event) : Prop :=
  match ev with
  | Fetch paddr len _ => cacheable v0 paddr ∧ len = vmi.page_size v0
  | Release _ len => len = vmi.page_size v0
  end.

(** Every entry is kept under its own address, which is cacheable, and has
    the page size as its length; the trace has well-formed calls only. *)
Definition well_keyed (v0 : vmi.t) (s : state) (m : gmap N entry.t) : Prop :=
  same_guest (inst s) v0
  ∧ vmi.memory_cache (inst s) = Some m
  ∧ (∀ k e, m !! k = Some e →
       entry.paddr e = k ∧ entry.length e = vmi.page_size v0
       ∧ cacheable v0 k)
  ∧ Forall (event_ok v0) (trace s).

(** ** A life of the single slot *)

Definition slot_inserts (pages : list N) : M unit :=
  for_each (λ p, SingleSlot.memory_cache_insert p ;; ret tt) pages.

Definition slot_session (get_data : get_data_t) (pages : list N) : M unit :=
  SingleSlot.memory_cache_init get_data host_release 0 ;;
  slot_inserts pages.

(** The buffer that the slot holds, with the page size, if it holds one. *)
Definition slot_buffer (v : vmi.t) : list (N * N) :=
  if (vmi.last_used_page v =? 0)%N then []
  else [(vmi.last_used_page v, vmi.page_size v)].

(** * Properties *)

(** On a closed run, the state a call returns: its instance and its trace
    are computed, its callbacks are given. *)
Ltac run_state get rel :=
  lazymatch goal with
  | |- ?run = Some (_, ?s) =>
      let v := eval vm_compute in
                 (from_option (λ r, inst r.2) (guest false 0) run) in
      let tr := eval vm_compute in (from_option (λ r, trace r.2) [] run) in
      unify s (mk_state v get rel tr); reflexivity
  end.

(** ** Machine arithmetic *)

Lemma sub32_pred (n : N) : (0 < n < 2 ^ 32)%N → sub32 n 1 = (n - 1)%N.
Proof.
  intros [Hpos Hlt]. unfold sub32.
  replace (n + 2 ^ 32 - 1)%N with (n - 1 + 1 * 2 ^ 32)%N by lia.
  rewrite N.Div0.mod_add. apply N.mod_small. lia.
Qed.

Lemma add32_succ (n : N) : (n + 1 < 2 ^ 32)%N → add32 n 1 = (n + 1)%N.
Proof. intros Hlt. unfold add32. apply N.mod_small. lia. Qed.

(** ** The eviction loop *)

Import PageCache.

Lemma clean_cache_loop_unfold (v : vmi.t) (lst : list N) :
  clean_cache_loop v lst =
    if clean_cache_guard v
    then clean_cache_loop (clean_cache_body v lst).1 (clean_cache_body v lst).2
    else (v, lst).
Proof. funelim (clean_cache_loop v lst); by rewrite e. Qed.

Lemma g_list_last_snoc (l : list N) (x : N) :
  g_list_last (l ++ [x]) = Some (base.length l).
Proof.
  destruct l as [|y l]; [done|]. cbn. rewrite length_app. cbn.
  f_equal. lia.
Qed.

(** One turn takes the last element off the lru list, if there is one, and
    puts it at the end of the local list. *)
Lemma clean_cache_body_eq (v : vmi.t) (lst : list N) :
  clean_cache_body v lst =
    (vmi.with_memory_cache_size (sub32 (vmi.memory_cache_size v) 1)
       (vmi.with_memory_cache_lru
          (take (Nat.pred (base.length (vmi.memory_cache_lru v)))
                (vmi.memory_cache_lru v)) v),
     lst ++ drop (Nat.pred (base.length (vmi.memory_cache_lru v)))
                 (vmi.memory_cache_lru v)).
Proof.
  unfold clean_cache_body, g_list_concat.
  destruct (vmi.memory_cache_lru v) as [|x l _] using rev_ind.
  - cbn. by rewrite app_nil_r.
  - rewrite g_list_last_snoc. unfold g_list_remove_link.
    rewrite list_lookup_middle by done.
    rewrite length_app, Nat.add_1_r. cbn [Nat.pred].
    rewrite take_app_length, drop_app_length.
    replace (base.delete (base.length l) (l ++ [x])) with l; [done|].
    rewrite delete_middle. by rewrite app_nil_r.
Qed.

Lemma reverse_drop_pred (l : list N) (n : nat) :
  reverse (drop (Nat.pred n) l) =
    reverse (drop n l) ++ drop (Nat.pred n) (take n l).
Proof.
  destruct n as [|n]; cbn [Nat.pred].
  - by rewrite take_0, app_nil_r.
  - destruct (l !! n) as [x|] eqn:Hx.
    + rewrite (drop_S l x n Hx), reverse_cons. f_equal.
      rewrite (take_S_r l n x Hx).
      assert (base.length (take n l) = n) as Hlen.
      { rewrite length_take. apply lookup_lt_Some in Hx. lia. }
      rewrite drop_app_ge by lia. rewrite Hlen, Nat.sub_diag. done.
    + apply lookup_ge_None in Hx.
      rewrite !drop_ge by lia. rewrite drop_ge; [done|].
      rewrite length_take. lia.
Qed.

Lemma clean_cache_turns_S (k : nat) (v : vmi.t) (lst : list N) :
  clean_cache_turns (S k) v lst =
    clean_cache_body (clean_cache_turns k v lst).1 (clean_cache_turns k v lst).2.
Proof. done. Qed.

(** The state after [k] turns, as long as the counter does not wrap. *)
Lemma clean_cache_turns_eq (k : nat) (v : vmi.t) (lst : list N) :
  (N.of_nat k ≤ vmi.memory_cache_size v < 2 ^ 32)%N →
  clean_cache_turns k v lst =
    (vmi.with_memory_cache_size (vmi.memory_cache_size v - N.of_nat k)
       (vmi.with_memory_cache_lru
          (take (base.length (vmi.memory_cache_lru v) - k)
                (vmi.memory_cache_lru v)) v),
     lst ++ reverse (drop (base.length (vmi.memory_cache_lru v) - k)
                          (vmi.memory_cache_lru v))).
Proof.
  induction k as [|k IH]; intros Hk.
  - cbn. rewrite Nat.sub_0_r, firstn_all, drop_all, N.sub_0_r.
    rewrite app_nil_r. by destruct v.
  - rewrite clean_cache_turns_S, IH by lia. cbn [fst snd].
    rewrite clean_cache_body_eq. destruct v as [ps sz hv mc lru age n mx ky pg].
    cbn -[reverse take drop N.sub N.pow N.of_nat sub32] in *.
    rewrite length_take.
    set (len := base.length lru).
    replace (Nat.pred ((len - k) `min` len)) with (Nat.pred (len - k)) by lia.
    rewrite take_take.
    replace (Nat.pred (len - k) `min` (len - k))%nat with (len - S k)%nat by lia.
    rewrite sub32_pred by lia.
    replace (n - N.of_nat k - 1)%N with (n - N.of_nat (S k))%N by lia.
    f_equal. rewrite <- app_assoc. f_equal.
    replace (len - S k)%nat with (Nat.pred (len - k)) by lia.
    symmetry. apply reverse_drop_pred.
Qed.

Lemma clean_cache_turns_succ_r (k : nat) (v : vmi.t) (lst : list N) :
  clean_cache_turns (S k) v lst =
    clean_cache_turns k (clean_cache_body v lst).1 (clean_cache_body v lst).2.
Proof.
  unfold clean_cache_turns. rewrite Nat.iter_succ_r. cbn [fst snd].
  by destruct (clean_cache_body v lst).
Qed.

Lemma clean_cache_loop_turns (k : nat) (v : vmi.t) (lst : list N) :
  (∀ j, (j < k)%nat → clean_cache_guard (clean_cache_turns j v lst).1 = true) →
  clean_cache_guard (clean_cache_turns k v lst).1 = false →
  clean_cache_loop v lst = clean_cache_turns k v lst.
Proof.
  revert v lst. induction k as [|k IH]; intros v lst Hlt Hend.
  - rewrite clean_cache_loop_unfold. cbn in Hend. by rewrite Hend.
  - rewrite clean_cache_loop_unfold.
    assert (clean_cache_guard v = true) as -> by (apply (Hlt 0%nat); lia).
    rewrite clean_cache_turns_succ_r in *.
    apply IH; [|done].
    intros j Hj. rewrite <- clean_cache_turns_succ_r. apply Hlt. lia.
Qed.

Lemma clean_cache_loop_eq (v : vmi.t) (lst : list N) :
  (vmi.memory_cache_size v < 2 ^ 32)%N →
  clean_cache_loop v lst = clean_cache_turns (clean_cache_count v) v lst
  ∧ clean_cache_guard (clean_cache_turns (clean_cache_count v) v lst).1 = false
  ∧ ∀ j, (j < clean_cache_count v)%nat →
         clean_cache_guard (clean_cache_turns j v lst).1 = true.
Proof.
  intros Hlt. unfold clean_cache_count.
  set (h := (vmi.memory_cache_size_max v / 2)%N).
  assert (∀ j, (j ≤ N.to_nat (vmi.memory_cache_size v - h))%nat →
    clean_cache_guard (clean_cache_turns j v lst).1
    = (h <? vmi.memory_cache_size v - N.of_nat j)%N) as Hguard.
  { intros j Hj. rewrite clean_cache_turns_eq by lia.
    unfold clean_cache_guard. by destruct v. }
  assert (clean_cache_guard
            (clean_cache_turns (N.to_nat (vmi.memory_cache_size v - h)) v lst).1
          = false) as Hend.
  { rewrite Hguard by lia. apply N.ltb_ge. lia. }
  assert (∀ j, (j < N.to_nat (vmi.memory_cache_size v - h))%nat →
            clean_cache_guard (clean_cache_turns j v lst).1 = true) as Hrun.
  { intros j Hj. rewrite Hguard by lia. apply N.ltb_lt. lia. }
  split; [|done]. by apply clean_cache_loop_turns.
Qed.

(** C10. The loop of [clean_cache] returns on every state whose counter is a
    32-bit value: a turn takes exactly one off the counter, also on an empty
    lru list, which it leaves empty; the loop is left after
    [size - size_max / 2] turns (none when that is not positive), with the
    guard false for the first time, whatever the length of the lru list. *)
Theorem clean_cache_terminates (v : vmi.t) (lst : list N) :
  (vmi.memory_cache_size v < 2 ^ 32)%N →
  (clean_cache_guard v = true →
     vmi.memory_cache_size (clean_cache_body v lst).1
     = (vmi.memory_cache_size v - 1)%N
     ∧ (0 < vmi.memory_cache_size v)%N)
  ∧ (vmi.memory_cache_lru v = [] →
     vmi.memory_cache_lru (clean_cache_body v lst).1 = []
     ∧ (clean_cache_body v lst).2 = lst)
  ∧ ∃ k : nat,
      N.of_nat k = (vmi.memory_cache_size v
                    - vmi.memory_cache_size_max v / 2)%N
      ∧ clean_cache_loop v lst = clean_cache_turns k v lst
      ∧ clean_cache_guard (clean_cache_loop v lst).1 = false
      ∧ (∀ j, (j < k)%nat →
           clean_cache_guard (clean_cache_turns j v lst).1 = true)
      ∧ vmi.memory_cache_size (clean_cache_loop v lst).1
        = (vmi.memory_cache_size v - N.of_nat k)%N.
Proof.
  intros Hlt. split; [|split].
  - intros Hg. unfold clean_cache_guard in Hg. apply N.ltb_lt in Hg.
    revert Hg. generalize (vmi.memory_cache_size_max v / 2)%N. intros h Hg.
    rewrite clean_cache_body_eq. cbn. split; [|lia].
    apply sub32_pred. lia.
  - intros Hnil. rewrite clean_cache_body_eq, Hnil. cbn.
    by rewrite app_nil_r.
  - destruct (clean_cache_loop_eq v lst Hlt) as (Heq & Hend & Hrun).
    exists (clean_cache_count v). rewrite Heq.
    assert (N.of_nat (clean_cache_count v)
            = (vmi.memory_cache_size v - vmi.memory_cache_size_max v / 2)%N)
      as Hcount by apply N2Nat.id.
    do 4 (split; [done|]).
    rewrite clean_cache_turns_eq; [done|].
    rewrite Hcount. generalize (vmi.memory_cache_size_max v / 2)%N. lia.
Qed.

Lemma clean_cache_terminates_witness :
  vmi.memory_cache_size (clean_cache_loop short_lru []).1 = 2%N
  ∧ vmi.memory_cache_lru (clean_cache_loop short_lru []).1 = [].
Proof.
  destruct (clean_cache_terminates short_lru []) as (_ & _ & k & Hk & Hloop & _);
    [by vm_compute|].
  assert (k = 3%nat) as -> by (apply Nat2N.inj; rewrite Hk; reflexivity).
  rewrite Hloop. by vm_compute.
Defined.

(** ** The operations, one case at a time *)

Lemma release_data_eq (s : state) (r : release_data_t) (buf len : N) :
  release_data_callback s = Some r →
  release_data buf len s
  = Some (tt, with_trace (trace s ++ [Release buf len]) s).
Proof. unfold release_data. intros ->. by destruct r. Qed.

Lemma get_memory_data_eq (s : state) (g : get_data_t) (paddr len : N) :
  get_data_callback s = Some g →
  get_memory_data paddr len s
  = Some (g (inst s) (trace s) paddr len,
          with_trace
            (trace s ++ [Fetch paddr len (g (inst s) (trace s) paddr len)]) s).
Proof. unfold get_memory_data. by intros ->. Qed.

Lemma g_hash_table_remove_eq (key : N) (s : state) (r : release_data_t)
    (m : gmap N entry.t) :
  release_data_callback s = Some r →
  vmi.memory_cache (inst s) = Some m →
  g_hash_table_remove key s
  = Some (tt, match m !! key with
              | Some e =>
                  with_trace
                    (trace s ++ [Release (entry.data e) (entry.length e)])
                    (with_inst (vmi.with_memory_cache
                                  (Some (base.delete key m)) (inst s)) s)
              | None => s
              end).
Proof.
  intros Hr Hm. unfold g_hash_table_remove, bind, get_vmi. rewrite Hm.
  destruct (m !! key) as [e|]; [|done].
  unfold update_vmi, memory_cache_entry_free.
  by erewrite release_data_eq.
Qed.

Lemma for_each_remove_entry_eq (lst : list N) (s : state)
    (r : release_data_t) (m : gmap N entry.t) :
  release_data_callback s = Some r →
  vmi.memory_cache (inst s) = Some m →
  for_each remove_entry lst s
  = Some (tt, with_trace (trace s ++ evict_trace m lst)
                (with_inst (vmi.with_memory_cache
                              (Some (evict_table m lst)) (inst s)) s)).
Proof.
  revert s m. induction lst as [|k lst IH]; intros s m Hr Hm.
  - cbn. unfold ret. do 2 f_equal.
    destruct s as [v g r' tr]. destruct v. cbn in *. subst.
    by rewrite app_nil_r.
  - cbn [for_each evict_trace evict_table foldl]. unfold bind at 1.
    unfold remove_entry at 1.
    rewrite (g_hash_table_remove_eq k s r m Hr Hm).
    destruct (m !! k) as [e|] eqn:Hk.
    + rewrite (IH _ (base.delete k m)) by done.
      do 2 f_equal. destruct s as [v g r' tr]. destruct v. cbn in *.
      by rewrite <- app_assoc.
    + rewrite (IH s m Hr Hm). do 4 f_equal.
      unfold evict_table. f_equal. by rewrite delete_id.
Qed.

(** The loop touches the lru list and the counter only. *)
Lemma clean_cache_loop_frame (v : vmi.t) (lst : list N) :
  vmi.memory_cache (clean_cache_loop v lst).1 = vmi.memory_cache v
  ∧ vmi.memory_cache_size_max (clean_cache_loop v lst).1
    = vmi.memory_cache_size_max v
  ∧ vmi.memory_cache_age (clean_cache_loop v lst).1 = vmi.memory_cache_age v
  ∧ vmi.page_size (clean_cache_loop v lst).1 = vmi.page_size v
  ∧ vmi.size (clean_cache_loop v lst).1 = vmi.size v
  ∧ vmi.hvm (clean_cache_loop v lst).1 = vmi.hvm v.
Proof.
  funelim (clean_cache_loop v lst); [|done].
  destruct H as (H1 & H2 & H3 & H4 & H5 & H6).
  rewrite H1, H2, H3, H4, H5, H6. rewrite clean_cache_body_eq. done.
Qed.

Lemma clean_cache_eq (s : state) (r : release_data_t) (m : gmap N entry.t) :
  release_data_callback s = Some r →
  vmi.memory_cache (inst s) = Some m →
  clean_cache s
  = Some (tt,
          with_trace
            (trace s ++ evict_trace m (clean_cache_loop (inst s) []).2)
            (with_inst
               (vmi.with_memory_cache
                  (Some (evict_table m (clean_cache_loop (inst s) []).2))
                  (clean_cache_loop (inst s) []).1) s)).
Proof.
  intros Hr Hm. unfold clean_cache, bind, get_vmi.
  pose proof (clean_cache_loop_frame (inst s) []) as (Hmc & _).
  destruct (clean_cache_loop (inst s) []) as [v' lst]. cbn [fst snd] in *.
  unfold update_vmi.
  rewrite (for_each_remove_entry_eq lst _ r m); [done|done|].
  cbn. by rewrite Hmc.
Qed.

Lemma insert_misaligned (now : Z) (paddr : N) (s : state) :
  paddr ≠ paddr_aligned (inst s) paddr →
  memory_cache_insert now paddr s = Some (0%N, s).
Proof.
  intros Hne. unfold memory_cache_insert, bind, get_vmi.
  apply N.eqb_neq in Hne. by rewrite Hne.
Qed.

Lemma insert_out_of_range (now : Z) (paddr : N) (s : state) :
  paddr = paddr_aligned (inst s) paddr →
  g_hash_table_lookup (vmi.memory_cache (inst s)) paddr = None →
  out_of_range (inst s) paddr (vmi.page_size (inst s)) = true →
  memory_cache_insert now paddr s = Some (0%N, s).
Proof.
  intros Hal Hmiss Hout. unfold memory_cache_insert, bind, get_vmi.
  apply N.eqb_eq in Hal. rewrite Hal, Hmiss. cbn [negb].
  unfold create_new_entry, bind, get_vmi.
  unfold out_of_range in Hout. by rewrite Hout.
Qed.

(** A hit on an entry that is not stale: the entry is touched, and nothing
    else changes. *)
Lemma insert_hit (now : Z) (paddr : N) (s : state) (m : gmap N entry.t)
    (e : entry.t) :
  paddr = paddr_aligned (inst s) paddr →
  vmi.memory_cache (inst s) = Some m →
  m !! paddr = Some e →
  stale (inst s) now e = false →
  memory_cache_insert now paddr s
  = Some (entry.data e,
          with_inst (vmi.with_memory_cache
                       (Some (<[paddr := entry.with_last_used now e]> m))
                       (inst s)) s).
Proof.
  intros Hal Hm He Hst. unfold memory_cache_insert, bind, get_vmi.
  apply N.eqb_eq in Hal. rewrite Hal, Hm. cbn [negb g_hash_table_lookup].
  rewrite He. unfold validate_and_return_data, bind, get_vmi.
  unfold stale in Hst. rewrite Hst.
  unfold write_entry, update_vmi, ret. by rewrite Hm.
Qed.

(** A hit on a stale entry. *)
Lemma insert_refresh (now : Z) (paddr : N) (s : state) (m : gmap N entry.t)
    (e : entry.t) (g : get_data_t) (r : release_data_t) :
  get_data_callback s = Some g →
  release_data_callback s = Some r →
  paddr = paddr_aligned (inst s) paddr →
  vmi.memory_cache (inst s) = Some m →
  m !! paddr = Some e →
  stale (inst s) now e = true →
  let tr1 := trace s ++ [Release (entry.data e) (entry.length e)] in
  let buf := g (inst s) tr1 (entry.paddr e) (entry.length e) in
  let lru := vmi.memory_cache_lru (inst s) in
  let unlinked :=
    g_list_remove_link lru
      (g_list_find_custom lru (entry.paddr e) g_int64_equal) in
  memory_cache_insert now paddr s
  = Some (buf,
          with_trace (tr1 ++ [Fetch (entry.paddr e) (entry.length e) buf])
            (with_inst
               (vmi.with_memory_cache
                  (Some (<[paddr := entry.with_last_used now
                                      (entry.with_last_updated now
                                         (entry.with_data buf e))]> m))
                  (vmi.with_memory_cache_lru
                     (g_list_concat unlinked.2 unlinked.1) (inst s))) s)).
Proof.
  intros Hg Hr Hal Hm He Hst. cbn zeta.
  unfold memory_cache_insert, bind, get_vmi.
  apply N.eqb_eq in Hal. rewrite Hal, Hm. cbn [negb g_hash_table_lookup].
  rewrite He. unfold validate_and_return_data, bind, get_vmi.
  unfold stale in Hst. rewrite Hst.
  erewrite release_data_eq by done.
  erewrite get_memory_data_eq by done. cbn [inst with_trace trace].
  destruct (g_list_remove_link _ _) as [lru link].
  unfold write_entry, update_vmi, ret. cbn. by rewrite Hm.
Qed.

(** A miss that passes the bounds check. *)
Lemma insert_miss (now : Z) (paddr : N) (s : state) (m : gmap N entry.t)
    (g : get_data_t) (r : release_data_t) :
  get_data_callback s = Some g →
  release_data_callback s = Some r →
  paddr = paddr_aligned (inst s) paddr →
  vmi.memory_cache (inst s) = Some m →
  m !! paddr = None →
  out_of_range (inst s) paddr (vmi.page_size (inst s)) = false →
  let len := vmi.page_size (inst s) in
  let buf := g (inst s) (trace s) paddr len in
  let v1 := (capacity_check (inst s)).1 in
  let lst := (capacity_check (inst s)).2 in
  memory_cache_insert now paddr s
  = Some (buf,
          with_trace (trace s ++ Fetch paddr len buf :: evict_trace m lst)
            (with_inst
               (vmi.with_memory_cache_size
                  (add32 (vmi.memory_cache_size v1) 1)
                  (vmi.with_memory_cache_lru
                     (paddr :: vmi.memory_cache_lru v1)
                     (vmi.with_memory_cache
                        (Some (<[paddr := entry.mk paddr len now now buf]>
                                 (evict_table m lst))) v1))) s)).
Proof.
  intros Hg Hr Hal Hm He Hin. cbn zeta.
  unfold memory_cache_insert, bind, get_vmi.
  apply N.eqb_eq in Hal. rewrite Hal, Hm. cbn [negb g_hash_table_lookup].
  rewrite He. unfold create_new_entry, bind, get_vmi.
  unfold out_of_range in Hin. rewrite Hin.
  erewrite get_memory_data_eq by done. cbn [inst with_trace trace].
  unfold capacity_check.
  destruct (vmi.memory_cache_size_max (inst s) <=? vmi.memory_cache_size (inst s))%N.
  - erewrite clean_cache_eq by done. cbn [inst with_trace trace with_inst].
    pose proof (clean_cache_loop_frame (inst s) []) as (Hmc & _).
    destruct (clean_cache_loop (inst s) []) as [v' lst]. cbn [fst snd] in *.
    unfold ret, g_hash_table_insert, bind, get_vmi, update_vmi. cbn.
    assert (evict_table m lst !! paddr = None) as ->.
    { clear -He. revert m He. induction lst as [|k lst IH]; intros m He; [done|].
      cbn. apply IH. rewrite lookup_delete_None. by right. }
    cbn. rewrite <- app_assoc. done.
  - unfold ret, g_hash_table_insert, bind, get_vmi, update_vmi. cbn.
    rewrite Hm, He. reflexivity.
Qed.

Lemma remove_misaligned (paddr : N) (s : state) :
  paddr ≠ paddr_aligned (inst s) paddr →
  memory_cache_remove paddr s = Some (tt, s).
Proof.
  intros Hne. unfold memory_cache_remove, bind, get_vmi.
  apply N.eqb_neq in Hne. by rewrite Hne.
Qed.

Lemma remove_aligned (paddr : N) (s : state) :
  paddr = paddr_aligned (inst s) paddr →
  memory_cache_remove paddr s = g_hash_table_remove paddr s.
Proof.
  intros Hal. unfold memory_cache_remove, bind, get_vmi.
  apply N.eqb_eq in Hal. by rewrite Hal.
Qed.

Lemma for_each_entry_free_eq (l : list (N * entry.t)) (s : state)
    (r : release_data_t) :
  release_data_callback s = Some r →
  for_each (λ ke, memory_cache_entry_free (Some ke.2)) l s
  = Some (tt, with_trace
                (trace s ++ ((λ ke, Release (entry.data ke.2)
                                      (entry.length ke.2)) <$> l)) s).
Proof.
  revert s. induction l as [|ke l IH]; intros s Hr.
  - cbn. unfold ret. destruct s. cbn. by rewrite app_nil_r.
  - cbn [for_each]. unfold bind at 1. unfold memory_cache_entry_free at 1.
    erewrite release_data_eq by done. rewrite IH by done.
    destruct s. cbn. by rewrite <- app_assoc.
Qed.

Lemma destroy_eq (s : state) (r : release_data_t) (m : gmap N entry.t) :
  release_data_callback s = Some r →
  vmi.memory_cache (inst s) = Some m →
  memory_cache_destroy s
  = Some (tt,
          mk_state
            (vmi.with_memory_cache_size_max 0
               (vmi.with_memory_cache_size 0
                  (vmi.with_memory_cache_age 0
                     (vmi.with_memory_cache None
                        (vmi.with_memory_cache_lru [] (inst s))))))
            None None
            (trace s ++ ((λ ke, Release (entry.data ke.2)
                                  (entry.length ke.2)) <$> map_to_list m))).
Proof.
  intros Hr Hm. unfold memory_cache_destroy, bind, get_vmi, update_vmi.
  cbn [inst with_inst vmi.memory_cache_lru vmi.with_memory_cache_size_max
       vmi.memory_cache].
  assert (∀ s1 : state,
    release_data_callback s1 = Some r → vmi.memory_cache (inst s1) = Some m →
    g_hash_table_destroy s1
    = Some (tt, with_trace
                  (trace s1 ++ ((λ ke, Release (entry.data ke.2)
                                         (entry.length ke.2))
                                <$> map_to_list m))
                  (with_inst (vmi.with_memory_cache (Some ∅) (inst s1)) s1)))
    as Hdestroy.
  { intros s1 Hr1 Hm1. unfold g_hash_table_destroy, bind, get_vmi, update_vmi.
    rewrite Hm1. by erewrite for_each_entry_free_eq. }
  destruct s as [v g r' tr]. destruct v as [ps sz hv mc lru age n mx ky pg].
  cbn in Hr, Hm. subst.
  destruct lru as [|k lru]; unfold ret; cbn -[g_hash_table_destroy];
    (erewrite Hdestroy; [reflexivity|done|done]).
Qed.

(** ** Release accounting *)

Lemma fetched_app (tr1 tr2 : list event) :
  fetched (tr1 ++ tr2) = fetched tr1 ++ fetched tr2.
Proof. apply omap_app. Qed.

Lemma released_app (tr1 tr2 : list event) :
  released (tr1 ++ tr2) = released tr1 ++ released tr2.
Proof. apply omap_app. Qed.

Lemma buffers_insert_fresh (m : gmap N entry.t) (k : N) (e : entry.t) :
  m !! k = None →
  buffers (<[k := e]> m) ≡ₚ (entry.data e, entry.length e) :: buffers m.
Proof.
  intros Hk. unfold buffers. by rewrite map_to_list_insert.
Qed.

Lemma buffers_delete (m : gmap N entry.t) (k : N) (e : entry.t) :
  m !! k = Some e →
  buffers m ≡ₚ (entry.data e, entry.length e) :: buffers (base.delete k m).
Proof.
  intros Hk. unfold buffers.
  by rewrite <- (map_to_list_delete m k e Hk).
Qed.

Lemma buffers_replace (m : gmap N entry.t) (k : N) (e : entry.t) :
  buffers (<[k := e]> m)
  ≡ₚ (entry.data e, entry.length e) :: buffers (base.delete k m).
Proof.
  rewrite <- insert_delete_eq. apply buffers_insert_fresh.
  apply lookup_delete_eq.
Qed.

Lemma evict_table_lookup_None (m : gmap N entry.t) (lst : list N) (k : N) :
  m !! k = None → evict_table m lst !! k = None.
Proof.
  revert m. induction lst as [|k' lst IH]; intros m Hk; [done|].
  cbn. apply IH. rewrite lookup_delete_None. by right.
Qed.

Lemma fetched_evict_trace (m : gmap N entry.t) (lst : list N) :
  fetched (evict_trace m lst) = [].
Proof.
  revert m. induction lst as [|k lst IH]; intros m; [done|].
  cbn. destruct (m !! k); cbn; apply IH.
Qed.

(** What an eviction releases and what it leaves make up what was there. *)
Lemma evict_balance (m : gmap N entry.t) (lst : list N) :
  released (evict_trace m lst) ++ buffers (evict_table m lst) ≡ₚ buffers m.
Proof.
  revert m. induction lst as [|k lst IH]; intros m; [done|].
  cbn [evict_trace evict_table foldl].
  destruct (m !! k) as [e|] eqn:Hk.
  - cbn. rewrite (buffers_delete m k e Hk). constructor. apply IH.
  - rewrite delete_id by done. apply IH.
Qed.

Lemma resident_table (v : vmi.t) (m : gmap N entry.t) :
  vmi.memory_cache v = Some m → resident v = buffers m.
Proof. unfold resident. by intros ->. Qed.

Lemma insert_keeps_balance (now : Z) (paddr : N) (s : state) :
  installed s → balanced s →
  ∃ buf s', memory_cache_insert now paddr s = Some (buf, s')
            ∧ installed s' ∧ balanced s'.
Proof.
  intros ([g Hg] & [r Hr] & [m Hm]) Hbal.
  unfold balanced in *. rewrite (resident_table _ m Hm) in Hbal.
  destruct (decide (paddr = paddr_aligned (inst s) paddr)) as [Hal|Hal];
    [|rewrite insert_misaligned by done; eexists _, _; split; [done|];
      split; [by repeat split; eexists|];
      unfold balanced; by rewrite (resident_table _ m Hm)].
  destruct (m !! paddr) as [e|] eqn:He.
  - destruct (stale (inst s) now e) eqn:Hst.
    + rewrite (insert_refresh now paddr s m e g r) by done.
      eexists _, _. split; [done|]. split; [by repeat split; eexists|].
      unfold balanced. cbn [trace with_trace inst with_inst].
      erewrite resident_table by done.
      rewrite !fetched_app, !released_app. cbn.
      rewrite app_nil_r, Hbal, buffers_replace, (buffers_delete m paddr e He).
      solve_Permutation.
    + rewrite (insert_hit now paddr s m e) by done.
      eexists _, _. split; [done|]. split; [by repeat split; eexists|].
      unfold balanced. cbn [trace with_trace inst with_inst].
      erewrite resident_table by done.
      rewrite Hbal, buffers_replace, (buffers_delete m paddr e He). done.
  - destruct (out_of_range (inst s) paddr (vmi.page_size (inst s))) eqn:Hout.
    + rewrite insert_out_of_range by (done || by rewrite Hm).
      eexists _, _. split; [done|]. split; [by repeat split; eexists|].
      unfold balanced. by rewrite (resident_table _ m Hm).
    + rewrite (insert_miss now paddr s m g r) by done.
      eexists _, _. split; [done|]. split; [by repeat split; eexists|].
      unfold balanced. cbn [trace with_trace inst with_inst].
      erewrite resident_table by done.
      rewrite fetched_app, released_app. cbn.
      rewrite fetched_evict_trace, Hbal.
      rewrite buffers_insert_fresh by by apply evict_table_lookup_None.
      rewrite <- (evict_balance m (capacity_check (inst s)).2) at 1.
      solve_Permutation.
Qed.

Lemma remove_keeps_balance (paddr : N) (s : state) :
  installed s → balanced s →
  ∃ s', memory_cache_remove paddr s = Some (tt, s')
        ∧ installed s' ∧ balanced s'.
Proof.
  intros ([g Hg] & [r Hr] & [m Hm]) Hbal.
  destruct (decide (paddr = paddr_aligned (inst s) paddr)) as [Hal|Hal];
    [|rewrite remove_misaligned by done; eexists; split; [done|];
      split; [by repeat split; eexists|done]].
  rewrite remove_aligned, (g_hash_table_remove_eq paddr s r m) by done.
  eexists. split; [done|].
  destruct (m !! paddr) as [e|] eqn:He;
    [|split; [by repeat split; eexists|done]].
  split; [by repeat split; eexists|].
  unfold balanced in *. cbn [trace with_trace inst with_inst].
  erewrite resident_table by done. rewrite (resident_table _ m Hm) in Hbal.
  rewrite released_app, fetched_app. cbn.
  rewrite app_nil_r, Hbal, (buffers_delete m paddr e He).
  solve_Permutation.
Qed.

Lemma run_calls_keep_balance (calls : list call) (s : state) :
  installed s → balanced s →
  ∃ s', run_calls calls s = Some (tt, s') ∧ installed s' ∧ balanced s'.
Proof.
  revert s. induction calls as [|c calls IH]; intros s Hin Hbal.
  - by exists s.
  - unfold run_calls. cbn [for_each]. unfold bind at 1.
    destruct c as [now paddr|paddr]; cbn [run_call].
    + destruct (insert_keeps_balance now paddr s Hin Hbal)
        as (buf & s1 & Heq & Hin1 & Hbal1).
      unfold bind at 1. rewrite Heq. unfold ret. by apply IH.
    + destruct (remove_keeps_balance paddr s Hin Hbal)
        as (s1 & Heq & Hin1 & Hbal1).
      rewrite Heq. by apply IH.
Qed.

Lemma session_keeps_balance (MAX age : N) (g : get_data_t) (v0 : vmi.t)
    (calls : list call) :
  ∃ s, session MAX g age calls (boot v0) = Some (tt, s)
       ∧ installed s ∧ balanced s.
Proof.
  unfold session, bind at 1. cbn [memory_cache_init boot inst trace].
  apply run_calls_keep_balance.
  - by repeat split; eexists.
  - unfold balanced. cbn. unfold resident. cbn. by rewrite map_to_list_empty.
Qed.

Lemma destroy_releases_all (s : state) :
  installed s → balanced s →
  ∃ s', memory_cache_destroy s = Some (tt, s')
        ∧ resident (inst s') = []
        ∧ fetched (trace s') ≡ₚ released (trace s').
Proof.
  intros ([g Hg] & [r Hr] & [m Hm]) Hbal.
  rewrite (destroy_eq s r m) by done. eexists. split; [done|].
  split; [done|]. cbn [trace].
  unfold balanced in Hbal. rewrite (resident_table _ m Hm) in Hbal.
  rewrite fetched_app, released_app.
  assert (∀ l : list (N * entry.t),
    fetched ((λ ke, Release (entry.data ke.2) (entry.length ke.2)) <$> l) = []
    ∧ released ((λ ke, Release (entry.data ke.2) (entry.length ke.2)) <$> l)
      = (λ ke, (entry.data ke.2, entry.length ke.2)) <$> l) as Hl.
  { induction l as [|ke l [IH1 IH2]]; [done|]. cbn. split; [done|].
    f_equal. apply IH2. }
  destruct (Hl (map_to_list m)) as [-> ->]. by rewrite app_nil_r.
Qed.

Lemma capacity_check_empty (v : vmi.t) :
  vmi.memory_cache_size v = 0%N → capacity_check v = (v, []).
Proof.
  intros Hz. unfold capacity_check.
  destruct (_ <=? _)%N; [|done].
  rewrite clean_cache_loop_unfold. unfold clean_cache_guard.
  rewrite Hz. by destruct (_ / 2)%N.
Qed.

(** C1. Whatever the host calls between [memory_cache_init] and
    [memory_cache_destroy], no call faults and the buffers fetched so far
    are, counted with repetition and each with the length of its fetch, the
    buffers released so far together with those the table still holds: a
    buffer whose entry has left the table (by eviction, by
    [memory_cache_remove] or by a refresh) has been released exactly once
    with its length.  [memory_cache_destroy] then releases what the table
    holds, so that fetched and released buffers coincide.  For the life
    insert(p); destroy() the trace is one fetch followed by one release of
    the fetched buffer, when p is aligned and inside the guest's memory, and
    is empty otherwise. *)
Theorem release_exactly_once (MAX age : N) (g : get_data_t) (v0 : vmi.t)
    (calls : list call) :
  (∃ s, session MAX g age calls (boot v0) = Some (tt, s)
        ∧ fetched (trace s) ≡ₚ released (trace s) ++ resident (inst s)
        ∧ ∃ s', memory_cache_destroy s = Some (tt, s')
                ∧ resident (inst s') = []
                ∧ fetched (trace s') ≡ₚ released (trace s'))
  ∧ ∀ (now : Z) (p : N),
      ∃ s' buf,
        (session MAX g age [Insert now p] ;; memory_cache_destroy) (boot v0)
        = Some (tt, s')
        ∧ trace s'
          = if bool_decide (p = paddr_aligned v0 p)
               && negb (out_of_range v0 p (vmi.page_size v0))
            then [Fetch p (vmi.page_size v0) buf;
                  Release buf (vmi.page_size v0)]
            else [].
Proof.
  split.
  - destruct (session_keeps_balance MAX age g v0 calls) as (s & Hs & Hin & Hbal).
    exists s. split; [done|]. split; [done|].
    by apply destroy_releases_all.
  - intros now p. unfold bind at 1. unfold session, bind at 1.
    cbn [memory_cache_init boot inst trace]. unfold run_calls.
    cbn [for_each run_call]. unfold bind at 1. unfold bind at 1.
    set (s0 := mk_state _ _ _ _).
    assert (get_data_callback s0 = Some g) as Hg by done.
    assert (release_data_callback s0 = Some host_release) as Hr by done.
    assert (vmi.memory_cache (inst s0) = Some ∅) as Hm by done.
    assert (paddr_aligned (inst s0) p = paddr_aligned v0 p) as Hal by done.
    assert (out_of_range (inst s0) p (vmi.page_size (inst s0))
            = out_of_range v0 p (vmi.page_size v0)) as Hout by done.
    assert (trace s0 = []) as Htr by done.
    assert (vmi.page_size (inst s0) = vmi.page_size v0) as Hps by done.
    assert (vmi.memory_cache_size (inst s0) = 0%N) as Hsz by done.
    clearbody s0.
    destruct (decide (p = paddr_aligned v0 p)) as [Hp|Hp].
    + rewrite (bool_decide_eq_true_2 _ Hp). cbn [andb].
      destruct (out_of_range v0 p (vmi.page_size v0)) eqn:Ho; cbn [negb].
      * rewrite insert_out_of_range by (by rewrite ?Hal, ?Hm, ?Hout).
        unfold ret. cbn [for_each]. unfold ret.
        rewrite (destroy_eq s0 host_release ∅) by done.
        eexists _, 0%N. split; [done|]. cbn.
        by rewrite map_to_list_empty, Htr.
      * rewrite (insert_miss now p s0 ∅ g host_release)
          by (by rewrite ?Hal, ?Hm, ?Hout).
        unfold ret. cbn [for_each]. unfold ret.
        rewrite capacity_check_empty by done. cbn [fst snd evict_trace evict_table foldl].
        erewrite destroy_eq; [|done|done].
        eexists _, _. split; [done|]. cbn [trace with_trace].
        rewrite insert_empty, map_to_list_singleton, Htr, Hps. done.
    + rewrite (bool_decide_eq_false_2 _ Hp). cbn [andb].
      rewrite insert_misaligned by by rewrite Hal.
      unfold ret. cbn [for_each]. unfold ret.
      rewrite (destroy_eq s0 host_release ∅) by done.
      eexists _, 0%N. split; [done|]. cbn.
      by rewrite map_to_list_empty, Htr.
Qed.

(** ** Explicit removal *)

(** C3. [memory_cache_remove] of a cached page removes the entry from the
    table and releases its buffer, but it leaves the key in the lru list and
    does not touch the counter: after insert(0x1000); remove(0x1000) the
    table is empty while the lru list still holds 0x1000 and
    [memory_cache_size] is still 1. *)
Theorem remove_leaves_lru_and_size :
  ∃ s, session 4 fresh_buffers 0 [Insert 1 0x1000; Remove 0x1000]
         (boot (guest false 0)) = Some (tt, s)
       ∧ vmi.memory_cache (inst s) = Some ∅
       ∧ trace s = [Fetch 0x1000 0x1000 0xB000; Release 0xB000 0x1000]
       ∧ vmi.memory_cache_lru (inst s) = [0x1000%N]
       ∧ vmi.memory_cache_size (inst s) = 1%N.
Proof.
  eexists. split; [run_state (Some fresh_buffers) (Some host_release)|].
  repeat split; reflexivity.
Qed.

(** C2. After insert(0x1000); insert(0x2000); remove(0x1000) the counter and
    the lru list say two pages and the table holds one; 0x1000 is in the lru
    list and not in the table.  A further insert(0x1000) puts the key in the
    lru list a second time. *)
Theorem remove_breaks_coherence :
  (∃ s m, session 4 fresh_buffers 0
            [Insert 1 0x1000; Insert 2 0x2000; Remove 0x1000]
            (boot (guest false 0)) = Some (tt, s)
          ∧ vmi.memory_cache (inst s) = Some m
          ∧ vmi.memory_cache_size (inst s) = 2%N
          ∧ base.length (vmi.memory_cache_lru (inst s)) = 2%nat
          ∧ base.size m = 1%nat
          ∧ 0x1000%N ∈ vmi.memory_cache_lru (inst s)
          ∧ m !! 0x1000%N = None)
  ∧ (∃ s m, session 4 fresh_buffers 0
              [Insert 1 0x1000; Insert 2 0x2000; Remove 0x1000;
               Insert 3 0x1000]
              (boot (guest false 0)) = Some (tt, s)
            ∧ vmi.memory_cache (inst s) = Some m
            ∧ vmi.memory_cache_size (inst s) = 3%N
            ∧ vmi.memory_cache_lru (inst s) = [0x1000; 0x2000; 0x1000]%N
            ∧ base.size m = 2%nat).
Proof.
  split.
  - eexists _, _.
    split; [run_state (Some fresh_buffers) (Some host_release)|].
    split; [reflexivity|].
    repeat split; try reflexivity.
    apply list_elem_of_lookup. by exists 1%nat.
  - eexists _, _.
    split; [run_state (Some fresh_buffers) (Some host_release)|].
    split; [reflexivity|].
    repeat split; reflexivity.
Qed.

(** ** Refresh *)

(** With [g_int64_equal] as its comparison, [g_list_find_custom] stops at
    the first key that differs from the one it is given. *)
Lemma find_custom_int64_equal (l : list N) (k : N) (i : nat) :
  g_list_find_custom l k g_int64_equal = Some i →
  ∃ x, l !! i = Some x ∧ x ≠ k
       ∧ ∀ j y, (j < i)%nat → l !! j = Some y → y = k.
Proof.
  revert i. induction l as [|x l IH]; intros i; [done|].
  cbn. unfold g_int64_equal at 1.
  destruct (x =? k)%N eqn:Hx; cbn.
  - apply N.eqb_eq in Hx. destruct (g_list_find_custom l k g_int64_equal)
      as [i'|]; [|done].
    cbn. intros [= <-]. destruct (IH i' eq_refl) as (y & Hy & Hne & Hbefore).
    exists y. split; [done|]. split; [done|].
    intros [|j] z Hj; cbn; [congruence|]. apply Hbefore. lia.
  - apply N.eqb_neq in Hx. intros [= <-]. exists x. split; [done|].
    split; [done|]. intros j y Hj. lia.
Qed.

(** C7. With an age limit of one second, insert(0x1000) and insert(0x2000)
    at time 0 leave the lru list at [0x2000; 0x1000].  An insert(0x1000) at
    time 2 releases the old buffer, fetches 0x1000 again and stamps the
    entry, and the lru list is as before, 0x2000 at its head.  An
    insert(0x2000) at time 2 instead refreshes the entry of the head, and
    moves 0x1000 in front of it. *)
Theorem refresh_moves_another_key :
  (∃ s m e, session 4 fresh_buffers 1
              [Insert 0 0x1000; Insert 0 0x2000; Insert 2 0x1000]
              (boot (guest false 0)) = Some (tt, s)
            ∧ trace s = [Fetch 0x1000 0x1000 0xB000;
                         Fetch 0x2000 0x1000 0xB001;
                         Release 0xB000 0x1000;
                         Fetch 0x1000 0x1000 0xB003]
            ∧ vmi.memory_cache (inst s) = Some m
            ∧ m !! 0x1000%N = Some e
            ∧ entry.last_updated e = 2%Z
            ∧ entry.data e = 0xB003%N
            ∧ vmi.memory_cache_lru (inst s) = [0x2000; 0x1000]%N)
  ∧ (∃ s, session 4 fresh_buffers 1
            [Insert 0 0x1000; Insert 0 0x2000; Insert 2 0x2000]
            (boot (guest false 0)) = Some (tt, s)
          ∧ trace s = [Fetch 0x1000 0x1000 0xB000;
                       Fetch 0x2000 0x1000 0xB001;
                       Release 0xB001 0x1000;
                       Fetch 0x2000 0x1000 0xB003]
          ∧ vmi.memory_cache_lru (inst s) = [0x1000; 0x2000]%N).
Proof.
  split.
  - eexists _, _, _.
    split; [run_state (Some fresh_buffers) (Some host_release)|].
    split; [reflexivity|]. split; [reflexivity|]. split; [reflexivity|].
    repeat split; reflexivity.
  - eexists. split; [run_state (Some fresh_buffers) (Some host_release)|].
    repeat split; reflexivity.
Qed.

(** ** The bounds check *)

(** C8. On a hardware-virtualized guest of 0x1FFF bytes with 4 KiB pages, a
    miss on 0x1000 calls the fetch callback and returns its buffer, although
    the page [0x1000, 0x2000) ends past the guest's memory: the check
    compares the address of the last byte of the page with the size and lets
    a page through whose last byte is at the size itself. *)
Theorem bounds_check_off_by_one :
  let v := guest true 0x1FFF in
  vmi.hvm v = true
  ∧ (vmi.size v < 0x1000 + vmi.page_size v)%N
  ∧ out_of_range v 0x1000 (vmi.page_size v) = false
  ∧ ∃ s s', session 4 fresh_buffers 0 [] (boot v) = Some (tt, s)
            ∧ g_hash_table_lookup (vmi.memory_cache (inst s)) 0x1000 = None
            ∧ memory_cache_insert 0 0x1000 s = Some (0xB000%N, s')
            ∧ trace s' = [Fetch 0x1000 0x1000 0xB000].
Proof.
  cbn zeta. split; [reflexivity|]. split; [by vm_compute|].
  split; [reflexivity|].
  eexists _, _. split; [run_state (Some fresh_buffers) (Some host_release)|].
  split; [reflexivity|].
  split; [run_state (Some fresh_buffers) (Some host_release)|]. reflexivity.
Qed.

(** ** A fetch that fails *)

(** C4, as stated, fails: with a fetch callback that returns NULL, a miss on
    0x1000 in an empty cache returns NULL and leaves an entry for 0x1000 in
    the table, the key in the lru list and the counter at one. *)
Lemma fetch_failure_is_cached :
  ∃ s', memory_cache_insert 1 0x1000 (empty_cache failing_fetch 0)
        = Some (0%N, s')
        ∧ trace s' = [Fetch 0x1000 0x1000 0]
        ∧ vmi.memory_cache (inst s')
          = Some {[ 0x1000%N := entry.mk 0x1000 0x1000 1 1 0 ]}
        ∧ vmi.memory_cache (inst s')
          ≠ vmi.memory_cache (inst (empty_cache failing_fetch 0))
        ∧ vmi.memory_cache_lru (inst s') = [0x1000%N]
        ∧ vmi.memory_cache_lru (inst (empty_cache failing_fetch 0)) = []
        ∧ vmi.memory_cache_size (inst s') = 1%N
        ∧ vmi.memory_cache_size (inst (empty_cache failing_fetch 0)) = 0%N.
Proof.
  eexists. split; [run_state (Some failing_fetch) (Some host_release)|].
  split; [reflexivity|]. split; [reflexivity|].
  split; [|repeat split; reflexivity].
  cbn. intros [= Hm].
Qed.

(** C4, amended. On a miss, [memory_cache_insert] returns NULL without a
    change of state when [create_new_entry] refuses the page (bounds check).
    When the page passes the check and the fetch callback returns NULL,
    [memory_cache_insert] returns NULL as well, but after creating an entry
    with a NULL buffer: the eviction has run if the cache was full, the
    entry is in the table under its key, the key is at the head of the lru
    list and the counter is one up. *)
Theorem fetch_failure_inserts_null_entry (now : Z) (paddr : N) (s : state)
    (m : gmap N entry.t) (g : get_data_t) (r : release_data_t) :
  get_data_callback s = Some g →
  release_data_callback s = Some r →
  paddr = paddr_aligned (inst s) paddr →
  vmi.memory_cache (inst s) = Some m →
  m !! paddr = None →
  (out_of_range (inst s) paddr (vmi.page_size (inst s)) = true →
     memory_cache_insert now paddr s = Some (0%N, s))
  ∧ (out_of_range (inst s) paddr (vmi.page_size (inst s)) = false →
     g (inst s) (trace s) paddr (vmi.page_size (inst s)) = 0%N →
     ∃ s' m',
       memory_cache_insert now paddr s = Some (0%N, s')
       ∧ vmi.memory_cache (inst s') = Some m'
       ∧ m' !! paddr
         = Some (entry.mk paddr (vmi.page_size (inst s)) now now 0)
       ∧ vmi.memory_cache_lru (inst s')
         = paddr :: vmi.memory_cache_lru (capacity_check (inst s)).1
       ∧ vmi.memory_cache_size (inst s')
         = add32 (vmi.memory_cache_size (capacity_check (inst s)).1) 1
       ∧ trace s'
         = trace s ++ Fetch paddr (vmi.page_size (inst s)) 0
                        :: evict_trace m (capacity_check (inst s)).2).
Proof.
  intros Hg Hr Hal Hm He. split.
  - intros Hout. apply insert_out_of_range; [done| |done]. by rewrite Hm.
  - intros Hout Hnull.
    rewrite (insert_miss now paddr s m g r) by done. rewrite Hnull.
    eexists _, _. split; [done|]. split; [done|].
    split; [apply lookup_insert_eq|]. done.
Qed.

Lemma fetch_failure_inserts_null_entry_witness :
  ∃ s', memory_cache_insert 1 0x1000 (empty_cache failing_fetch 0)
        = Some (0%N, s')
        ∧ vmi.memory_cache_lru (inst s') = [0x1000%N]
        ∧ vmi.memory_cache_size (inst s') = 1%N.
Proof.
  destruct (fetch_failure_inserts_null_entry 1 0x1000
              (empty_cache failing_fetch 0) ∅ failing_fetch host_release
              eq_refl eq_refl eq_refl eq_refl eq_refl) as [_ Hnull].
  destruct (Hnull eq_refl eq_refl) as (s' & m' & Heq & _ & _ & Hlru & Hsz & _).
  exists s'. split; [exact Heq|]. rewrite Hlru, Hsz. split; reflexivity.
Defined.

(** ** The single slot *)

(** C9, as stated, fails: the slot holds the live buffer of page 0, an
    insert of page 0x1000 fetches the new page and overwrites the slot, and
    the release callback is not called. *)
Lemma single_slot_page_zero_not_released :
  ∃ s s' buf,
    (SingleSlot.memory_cache_init fresh_buffers host_release 0 ;;
     SingleSlot.memory_cache_insert 0) (boot (guest false 0))
    = Some (buf, s)
    ∧ buf ≠ 0%N
    ∧ vmi.last_used_page_key (inst s) = 0%N
    ∧ vmi.last_used_page (inst s) = buf
    ∧ trace s = [Fetch 0 0x1000 buf]
    ∧ SingleSlot.memory_cache_insert 0x1000 s = Some (0xB001%N, s')
    ∧ trace s' = [Fetch 0 0x1000 buf; Fetch 0x1000 0x1000 0xB001]
    ∧ released (trace s') = [].
Proof.
  eexists _, _, _.
  split; [run_state (Some fresh_buffers) (Some host_release)|].
  split; [discriminate|]. split; [reflexivity|]. split; [reflexivity|].
  split; [reflexivity|].
  split; [run_state (Some fresh_buffers) (Some host_release)|].
  split; reflexivity.
Qed.

(** C9, amended. In the single-slot build, an insert of the stored key with
    a buffer in the slot returns that buffer and changes nothing.  An insert
    of another key, when the stored key is not zero and the slot holds a
    buffer, calls the release callback on that buffer with the page size,
    then fetches the new page, stores key and buffer in the slot and returns
    the buffer. *)
Theorem single_slot_insert (s : state) (g : get_data_t) (r : release_data_t)
    (paddr : N) :
  get_data_callback s = Some g →
  release_data_callback s = Some r →
  vmi.last_used_page (inst s) ≠ 0%N →
  (paddr = vmi.last_used_page_key (inst s) →
     SingleSlot.memory_cache_insert paddr s
     = Some (vmi.last_used_page (inst s), s))
  ∧ (paddr ≠ vmi.last_used_page_key (inst s) →
     vmi.last_used_page_key (inst s) ≠ 0%N →
     let len := vmi.page_size (inst s) in
     let tr1 := trace s ++ [Release (vmi.last_used_page (inst s)) len] in
     let buf := g (inst s) tr1 paddr len in
     SingleSlot.memory_cache_insert paddr s
     = Some (buf,
             with_trace (tr1 ++ [Fetch paddr len buf])
               (with_inst
                  (vmi.with_last_used_page_key paddr
                     (vmi.with_last_used_page buf (inst s))) s))).
Proof.
  intros Hg Hr Hpage. apply N.eqb_neq in Hpage. split.
  - intros Hkey. apply N.eqb_eq in Hkey.
    unfold SingleSlot.memory_cache_insert, bind, get_vmi.
    by rewrite Hkey, Hpage.
  - intros Hkey Hnz. apply N.eqb_neq in Hkey, Hnz. cbn zeta.
    unfold SingleSlot.memory_cache_insert, bind, get_vmi.
    rewrite Hkey, Hnz, Hpage. cbn [andb negb].
    erewrite release_data_eq by done.
    erewrite get_memory_data_eq by done. reflexivity.
Qed.

Lemma single_slot_insert_witness :
  SingleSlot.memory_cache_insert 0x2000 (slot 0x2000 0xB000)
  = Some (0xB000%N, slot 0x2000 0xB000)
  ∧ ∃ s', SingleSlot.memory_cache_insert 0x3000 (slot 0x2000 0xB000)
          = Some (0xB002%N, s')
          ∧ trace s' = [Fetch 0x2000 0x1000 0xB000; Release 0xB000 0x1000;
                        Fetch 0x3000 0x1000 0xB002].
Proof.
  split.
  - refine (proj1 (single_slot_insert (slot 0x2000 0xB000) fresh_buffers
                     host_release 0x2000 eq_refl eq_refl _) eq_refl).
    discriminate.
  - eexists. split.
    + refine (proj2 (single_slot_insert (slot 0x2000 0xB000) fresh_buffers
                       host_release 0x3000 eq_refl eq_refl _) _ _);
        discriminate.
    + reflexivity.
Defined.

(** ** Eviction in a coherent cache *)

Lemma half_le (n : N) : (n / 2 ≤ n)%N.
Proof. apply N.Div0.div_le_upper_bound. lia. Qed.

Lemma capacity_check_coherent (v : vmi.t) (m : gmap N entry.t) :
  coherent v m →
  capacity_check v
  = (vmi.with_memory_cache_size (N.of_nat (base.length (kept v)))
       (vmi.with_memory_cache_lru (kept v) v),
     gone v).
Proof.
  intros (Hm & Hnd & Hdom & Hsz & Hle & Hmax).
  unfold capacity_check, kept, gone.
  destruct (vmi.memory_cache_size_max v <=? vmi.memory_cache_size v)%N eqn:Hfull.
  - apply N.leb_le in Hfull.
    destruct (clean_cache_loop_eq v []) as (-> & _); [lia|].
    pose proof (half_le (vmi.memory_cache_size_max v)) as Hhalf.
    unfold clean_cache_count.
    set (h := (vmi.memory_cache_size_max v / 2)%N) in *.
    rewrite clean_cache_turns_eq by lia.
    replace (base.length (vmi.memory_cache_lru v)
             - N.to_nat (vmi.memory_cache_size v - h))%nat
      with (N.to_nat h) by lia.
    rewrite length_take.
    replace (N.of_nat (N.to_nat h `min` base.length (vmi.memory_cache_lru v)))
      with h by lia.
    f_equal. f_equal. lia.
  - rewrite <- Hsz. by destruct v.
Qed.

Lemma lookup_evict_table (m : gmap N entry.t) (lst : list N) (k : N) :
  evict_table m lst !! k = if decide (k ∈ lst) then None else m !! k.
Proof.
  revert m. induction lst as [|k' lst IH]; intros m.
  - cbn. by rewrite decide_False by apply not_elem_of_nil.
  - cbn [evict_table foldl]. fold (evict_table (base.delete k' m) lst).
    rewrite IH. destruct (decide (k ∈ lst)) as [Hin|Hin].
    + by rewrite decide_True by by right.
    + destruct (decide (k = k')) as [->|Hne].
      * rewrite lookup_delete_eq. by rewrite decide_True by by left.
      * rewrite lookup_delete_ne by done.
        rewrite decide_False; [done|]. by intros [?|?]%elem_of_cons.
Qed.

Lemma evict_trace_delete_notin (m : gmap N entry.t) (lst : list N) (k : N) :
  k ∉ lst → evict_trace (base.delete k m) lst = evict_trace m lst.
Proof.
  revert m. induction lst as [|k' lst IH]; intros m Hk; [done|].
  apply not_elem_of_cons in Hk as [Hne Hk]. cbn.
  rewrite lookup_delete_ne by done.
  destruct (m !! k'); [|by apply IH].
  f_equal. rewrite delete_delete. by apply IH.
Qed.

(** The buffers an eviction releases, in order. *)
Lemma released_evict_trace (m : gmap N entry.t) (lst : list N) :
  NoDup lst → released (evict_trace m lst) = omap (buffer_of m) lst.
Proof.
  induction 1 as [|k lst Hk Hnd IH]; [done|].
  cbn. unfold buffer_of at 1. destruct (m !! k) as [e|]; cbn.
  - f_equal. by rewrite evict_trace_delete_notin.
  - done.
Qed.

Lemma kept_gone (v : vmi.t) :
  vmi.memory_cache_lru v ≡ₚ kept v ++ gone v.
Proof.
  unfold kept, gone. destruct (_ <=? _)%N.
  - rewrite reverse_Permutation. by rewrite take_drop.
  - by rewrite app_nil_r.
Qed.

Lemma kept_prefix (v : vmi.t) (i : nat) (k : N) :
  kept v !! i = Some k → vmi.memory_cache_lru v !! i = Some k.
Proof.
  unfold kept. destruct (_ <=? _)%N; [|done].
  intros Hk. by apply lookup_take_Some in Hk as [? ?].
Qed.

Lemma kept_length (v : vmi.t) (m : gmap N entry.t) :
  coherent v m →
  (N.of_nat (S (base.length (kept v))) ≤ N.max 1 (vmi.memory_cache_size_max v))%N
  ∧ if (vmi.memory_cache_size_max v <=? vmi.memory_cache_size v)%N
    then N.of_nat (base.length (kept v)) = (vmi.memory_cache_size_max v / 2)%N
    else N.of_nat (base.length (kept v)) = vmi.memory_cache_size v.
Proof.
  intros (Hm & Hnd & Hdom & Hsz & Hle & Hmax). unfold kept.
  pose proof (N.Div0.mul_div_le (vmi.memory_cache_size_max v) 2) as Hhalf.
  destruct (vmi.memory_cache_size_max v <=? vmi.memory_cache_size v)%N eqn:Hfull.
  - apply N.leb_le in Hfull. rewrite length_take.
    revert Hhalf. generalize (vmi.memory_cache_size_max v / 2)%N.
    intros h Hhalf. lia.
  - apply N.leb_gt in Hfull. lia.
Qed.

Lemma kept_gone_NoDup (v : vmi.t) :
  NoDup (vmi.memory_cache_lru v) →
  NoDup (kept v) ∧ NoDup (gone v) ∧ ∀ k, k ∈ kept v → k ∉ gone v.
Proof.
  intros Hnd. rewrite kept_gone in Hnd.
  apply list.NoDup_app in Hnd as (? & ? & ?). done.
Qed.

(** A miss in a coherent cache leaves a coherent cache. *)
Lemma insert_miss_coherent (now : Z) (paddr : N) (s : state)
    (m : gmap N entry.t) (g : get_data_t) (r : release_data_t) :
  get_data_callback s = Some g →
  release_data_callback s = Some r →
  coherent (inst s) m →
  paddr = paddr_aligned (inst s) paddr →
  m !! paddr = None →
  out_of_range (inst s) paddr (vmi.page_size (inst s)) = false →
  let len := vmi.page_size (inst s) in
  let buf := g (inst s) (trace s) paddr len in
  let m1 := <[paddr := entry.mk paddr len now now buf]>
              (evict_table m (gone (inst s))) in
  let v1 := vmi.with_memory_cache_size
              (N.of_nat (S (base.length (kept (inst s)))))
              (vmi.with_memory_cache_lru (paddr :: kept (inst s))
                 (vmi.with_memory_cache (Some m1) (inst s))) in
  memory_cache_insert now paddr s
  = Some (buf,
          with_trace
            (trace s ++ Fetch paddr len buf :: evict_trace m (gone (inst s)))
            (with_inst v1 s))
  ∧ coherent v1 m1.
Proof.
  intros Hg Hr Hco Hal He Hin. cbn zeta.
  pose proof Hco as (Hm & Hnd & Hdom & Hsz & Hle & Hmax).
  pose proof (kept_length _ _ Hco) as [Hlen _].
  pose proof (kept_gone_NoDup _ Hnd) as (Hndk & Hndg & Hdisj).
  split.
  - rewrite (insert_miss now paddr s m g r) by done.
    rewrite (capacity_check_coherent _ m Hco). cbn [fst snd].
    do 3 f_equal.
    assert (add32 (N.of_nat (base.length (kept (inst s)))) 1
            = N.of_nat (S (base.length (kept (inst s))))) as Hadd.
    { rewrite add32_succ by lia. lia. }
    destruct (inst s). cbn in *. by rewrite Hadd.
  - split; [by destruct (inst s)|].
    assert (vmi.memory_cache_lru
              (vmi.with_memory_cache_size
                 (N.of_nat (S (base.length (kept (inst s)))))
                 (vmi.with_memory_cache_lru (paddr :: kept (inst s))
                    (vmi.with_memory_cache
                       (Some (<[paddr := entry.mk paddr
                                  (vmi.page_size (inst s)) now now
                                  (g (inst s) (trace s) paddr
                                     (vmi.page_size (inst s)))]>
                                (evict_table m (gone (inst s)))))
                       (inst s))))
            = paddr :: kept (inst s)) as -> by by destruct (inst s).
    assert (∀ k, k ∈ kept (inst s) → is_Some (m !! k)) as Hkept.
    { intros k Hk. apply Hdom. rewrite kept_gone. apply elem_of_app. by left. }
    split; [|split; [|split; [|split]]].
    + apply list.NoDup_cons. split; [|done].
      intros Hk. apply Hkept in Hk. rewrite He in Hk. by destruct Hk.
    + intros k. rewrite elem_of_cons.
      destruct (decide (k = paddr)) as [->|Hne].
      * rewrite lookup_insert_eq. split; [by eexists|by left].
      * rewrite lookup_insert_ne by done. rewrite lookup_evict_table.
        destruct (decide (k ∈ gone (inst s))) as [Hgone|Hgone].
        -- split; [|by intros []]. intros [?|Hk]; [done|].
           by apply Hdisj in Hk.
        -- split; [intros [?|Hk]; [done|by apply Hkept]|].
           intros Hk. right. apply Hdom in Hk. rewrite kept_gone in Hk.
           by apply elem_of_app in Hk as [?|?].
    + by destruct (inst s).
    + destruct (inst s). cbn in *. lia.
    + by destruct (inst s).
Qed.

(** ** Order of the lru list *)

(** C6, as stated, fails: a hit that finds a fresh entry does not move its
    key.  After insert(0x1000), insert(0x2000), insert(0x1000) at times 1, 2
    and 3 the lru list is [0x2000; 0x1000]: the key that was just hit is not
    at the head, and the list is not in descending order of [last_used]. *)
Lemma hit_does_not_promote :
  ∃ s, session 4 fresh_buffers 0
         [Insert 1 0x1000; Insert 2 0x2000; Insert 3 0x1000]
         (boot (guest false 0)) = Some (tt, s)
       ∧ vmi.memory_cache_lru (inst s) = [0x2000; 0x1000]%N
       ∧ head (vmi.memory_cache_lru (inst s)) ≠ Some 0x1000%N
       ∧ ¬ lru_descending entry.last_used (inst s).
Proof.
  eexists. split; [run_state (Some fresh_buffers) (Some host_release)|].
  split; [reflexivity|]. split; [discriminate|].
  intros Hdesc.
  pose proof (Hdesc _ 0%nat 1%nat 0x2000%N 0x1000%N _ _ eq_refl
                ltac:(lia) eq_refl eq_refl eq_refl eq_refl) as Hle.
  cbn in Hle. lia.
Qed.

Lemma insert_keeps_creation_order (now : Z) (paddr : N) (s : state)
    (m : gmap N entry.t) :
  creation_ordered s m →
  (∀ k e, m !! k = Some e → (entry.last_updated e ≤ now)%Z) →
  ∃ buf s' m',
    memory_cache_insert now paddr s = Some (buf, s')
    ∧ creation_ordered s' m'
    ∧ ∀ k e', m' !! k = Some e' →
        entry.last_updated e' = now
        ∨ ∃ e, m !! k = Some e
               ∧ entry.last_updated e = entry.last_updated e'.
Proof.
  intros ([g Hg] & [r Hr] & Hco & Hage & Hord) Hbound.
  pose proof Hco as (Hm & Hnd & Hdom & Hsz & Hle & Hmax).
  destruct (decide (paddr = paddr_aligned (inst s) paddr)) as [Hal|Hal];
    [|rewrite insert_misaligned by done; exists 0%N, s, m;
      split; [done|]; split; [by (split; [by eexists|]; split; [by eexists|])|]; eauto].
  destruct (m !! paddr) as [e|] eqn:He.
  - assert (stale (inst s) now e = false) as Hst
      by (unfold stale; by rewrite Hage).
    rewrite (insert_hit now paddr s m e) by done.
    eexists _, _, (<[paddr := entry.with_last_used now e]> m).
    split; [done|].
    assert (∀ k e', <[paddr := entry.with_last_used now e]> m !! k = Some e' →
              ∃ e0, m !! k = Some e0
                    ∧ entry.last_updated e0 = entry.last_updated e') as Hsame.
    { intros k e'. destruct (decide (k = paddr)) as [->|Hne].
      - rewrite lookup_insert_eq. intros [= <-]. by exists e.
      - rewrite lookup_insert_ne by done. intros Hk. by exists e'. }
    split; [|intros k e' Hk; right; by apply Hsame].
    split; [by eexists|]. split; [by eexists|].
    split; [|split].
    + split; [by destruct (inst s)|].
      split; [by destruct (inst s)|].
      split; [|by destruct (inst s)].
      intros k. replace (vmi.memory_cache_lru _)
        with (vmi.memory_cache_lru (inst s)) by by destruct (inst s).
      rewrite Hdom. destruct (decide (k = paddr)) as [->|Hne].
      * rewrite lookup_insert_eq, He. split; by eexists.
      * by rewrite lookup_insert_ne.
    + by destruct (inst s).
    + intros m' i j a b ea eb Hm' Hij Ha Hb Hea Heb.
      assert (m' = <[paddr := entry.with_last_used now e]> m) as ->
        by (destruct (inst s); cbn in *; congruence).
      destruct (Hsame _ _ Hea) as (ea0 & Hea0 & <-).
      destruct (Hsame _ _ Heb) as (eb0 & Heb0 & <-).
      apply (Hord m i j a b); try done; by destruct (inst s).
  - destruct (out_of_range (inst s) paddr (vmi.page_size (inst s))) eqn:Hout.
    + rewrite insert_out_of_range by (done || by rewrite Hm).
      exists 0%N, s, m. split; [done|].
      split; [by (split; [by eexists|]; split; [by eexists|])|]. eauto.
    + pose proof (insert_miss_coherent now paddr s m g r Hg Hr Hco Hal He Hout)
        as Hmiss.
      cbn zeta in Hmiss. destruct Hmiss as [-> Hco'].
      set (e := entry.mk _ _ _ _ _) in *.
      set (m1 := <[paddr := e]> (evict_table m (gone (inst s)))) in *.
      eexists _, _, m1. split; [done|].
      assert (∀ k e', k ≠ paddr → m1 !! k = Some e' → m !! k = Some e')
        as Hold.
      { intros k e' Hne. unfold m1. rewrite lookup_insert_ne by done.
        rewrite lookup_evict_table. by destruct (decide _). }
      split; [|intros k e' Hk; destruct (decide (k = paddr)) as [->|Hne];
               [left; unfold m1 in Hk; rewrite lookup_insert_eq in Hk;
                by injection Hk as <-
               |right; exists e'; split; [by apply Hold|done]]].
      split; [by eexists|]. split; [by eexists|]. split; [done|].
      split; [by destruct (inst s)|].
      intros m' i j a b ea eb Hm' Hij Ha Hb Hea Heb.
      assert (m' = m1) as -> by (destruct (inst s); cbn in *; congruence).
      assert (vmi.memory_cache_lru
                (vmi.with_memory_cache_size
                   (N.of_nat (S (base.length (kept (inst s)))))
                   (vmi.with_memory_cache_lru (paddr :: kept (inst s))
                      (vmi.with_memory_cache (Some m1) (inst s))))
              = paddr :: kept (inst s)) as Hlru by by destruct (inst s).
      cbn [inst with_inst with_trace] in Ha, Hb. rewrite Hlru in Ha, Hb.
      destruct j as [|j]; [lia|]. cbn in Hb. apply kept_prefix in Hb.
      assert (b ≠ paddr) as Hbne.
      { intros ->. apply list_elem_of_lookup_2, Hdom in Hb.
        rewrite He in Hb. by destruct Hb. }
      apply Hold in Heb; [|done].
      destruct i as [|i].
      * cbn in Ha. injection Ha as <-. unfold m1 in Hea.
        rewrite lookup_insert_eq in Hea. injection Hea as <-.
        cbn. by eapply Hbound.
      * cbn in Ha. apply kept_prefix in Ha.
        assert (a ≠ paddr) as Hane.
        { intros ->. apply list_elem_of_lookup_2, Hdom in Ha.
          rewrite He in Ha. by destruct Ha. }
        apply Hold in Hea; [|done].
        apply (Hord m i j a b); try done. lia.
Qed.

Lemma run_inserts_keep_order (calls : list (Z * N)) (s : state)
    (m : gmap N entry.t) :
  creation_ordered s m →
  StronglySorted Z.le (calls.*1) →
  (∀ k e, m !! k = Some e → Forall (Z.le (entry.last_updated e)) (calls.*1)) →
  ∃ s' m', run_calls (inserts calls) s = Some (tt, s')
           ∧ creation_ordered s' m'.
Proof.
  revert s m. induction calls as [|[now paddr] calls IH];
    intros s m Hord Hsorted Hbound.
  - by exists s, m.
  - cbn in Hsorted. apply StronglySorted_inv in Hsorted as [Hsorted Hlater].
    destruct (insert_keeps_creation_order now paddr s m Hord)
      as (buf & s1 & m1 & Heq & Hord1 & Hfrom).
    { intros k e Hk. specialize (Hbound k e Hk). cbn in Hbound.
      by apply Forall_cons in Hbound as [? _]. }
    unfold inserts, run_calls. cbn [fmap list_fmap for_each run_call fst snd].
    unfold bind at 1. unfold bind at 1. rewrite Heq. unfold ret.
    apply (IH s1 m1 Hord1 Hsorted).
    intros k e' Hk. destruct (Hfrom k e' Hk) as [->|(e & He & <-)]; [done|].
    specialize (Hbound k e He). cbn in Hbound.
    by apply Forall_cons in Hbound as [_ ?].
Qed.

(** The key of the most recently created entry is at the head of a coherent
    lru list in descending order of [last_updated]. *)
Lemma descending_head_latest (v : vmi.t) (m : gmap N entry.t) (k : N)
    (e : entry.t) :
  coherent v m →
  lru_descending entry.last_updated v →
  m !! k = Some e →
  ∃ h eh, head (vmi.memory_cache_lru v) = Some h
          ∧ m !! h = Some eh
          ∧ (entry.last_updated e ≤ entry.last_updated eh)%Z.
Proof.
  intros (Hm & Hnd & Hdom & _) Hord He.
  assert (k ∈ vmi.memory_cache_lru v) as Hk by (apply Hdom; by eexists).
  apply list_elem_of_lookup_1 in Hk as [i Hi].
  destruct (vmi.memory_cache_lru v) as [|h lru] eqn:Hlru; [done|].
  assert (is_Some (m !! h)) as [eh Heh] by (apply Hdom; by left).
  exists h, eh. split; [done|]. split; [done|].
  destruct i as [|i].
  - cbn in Hi. injection Hi as ->. rewrite Heh in He. injection He as ->. lia.
  - apply (Hord m 0%nat (S i) h k eh e); try done; [lia|by rewrite Hlru..].
Qed.

(** C6, amended. A hit that finds a fresh entry (no age limit, or the age
    of the buffer within it) returns the buffer of the entry, stamps its
    [last_used] and changes nothing else: the lru list is as it was and no
    callback is called.  A key comes to the head of the list when a miss
    creates its entry: the miss stores the entry, stamped with the time of
    the call, under the key and puts the key in front of the keys that the
    capacity check has left, which in a coherent cache are all keys, or the
    first half of the capacity of them when the cache is full.  So with an
    age limit of zero and a clock that does not go backwards, after every
    insert of a session of inserts the lru list holds the keys of the
    table, each once, in descending order of [last_updated], the key whose
    entry was created last at its head. *)
Theorem lru_ordered_by_creation (MAX : N) (g : get_data_t) (v0 : vmi.t)
    (calls : list (Z * N)) :
  (MAX < 2 ^ 32)%N →
  StronglySorted Z.le (calls.*1) →
  (∃ s m, session MAX g 0 (inserts calls) (boot v0) = Some (tt, s)
          ∧ vmi.memory_cache (inst s) = Some m
          ∧ NoDup (vmi.memory_cache_lru (inst s))
          ∧ (∀ k, k ∈ vmi.memory_cache_lru (inst s) ↔ is_Some (m !! k))
          ∧ lru_descending entry.last_updated (inst s)
          ∧ (∀ k e, m !! k = Some e →
               ∃ h eh, head (vmi.memory_cache_lru (inst s)) = Some h
                       ∧ m !! h = Some eh
                       ∧ (entry.last_updated e ≤ entry.last_updated eh)%Z))
  ∧ (∀ (s : state) (now : Z) (paddr : N) (m : gmap N entry.t) (e : entry.t),
       paddr = paddr_aligned (inst s) paddr →
       vmi.memory_cache (inst s) = Some m →
       m !! paddr = Some e →
       stale (inst s) now e = false →
       ∃ s', memory_cache_insert now paddr s = Some (entry.data e, s')
             ∧ vmi.memory_cache_lru (inst s') = vmi.memory_cache_lru (inst s)
             ∧ vmi.memory_cache (inst s')
               = Some (<[paddr := entry.with_last_used now e]> m)
             ∧ trace s' = trace s)
  ∧ (∀ (s : state) (now : Z) (paddr : N) (m : gmap N entry.t)
       (get : get_data_t) (rel : release_data_t),
       get_data_callback s = Some get →
       release_data_callback s = Some rel →
       paddr = paddr_aligned (inst s) paddr →
       vmi.memory_cache (inst s) = Some m →
       m !! paddr = None →
       out_of_range (inst s) paddr (vmi.page_size (inst s)) = false →
       ∃ s' m',
         memory_cache_insert now paddr s
         = Some (get (inst s) (trace s) paddr (vmi.page_size (inst s)), s')
         ∧ vmi.memory_cache (inst s') = Some m'
         ∧ m' !! paddr
           = Some (entry.mk paddr (vmi.page_size (inst s)) now now
                     (get (inst s) (trace s) paddr (vmi.page_size (inst s))))
         ∧ head (vmi.memory_cache_lru (inst s')) = Some paddr
         ∧ vmi.memory_cache_lru (inst s')
           = paddr :: vmi.memory_cache_lru (capacity_check (inst s)).1
         ∧ (coherent (inst s) m →
            vmi.memory_cache_lru (inst s') = paddr :: kept (inst s))).
Proof.
  intros Hmax Hsorted. split; [|split].
  - unfold session, bind at 1. cbn [memory_cache_init boot inst trace].
    set (s0 := mk_state _ _ _ _).
    destruct (run_inserts_keep_order calls s0 ∅) as (s & m & Heq & Hord);
      [|done| |].
    + split; [by eexists|]. split; [by eexists|].
      split; [|split; [done|]].
      * split; [done|]. cbn. split; [constructor|].
        split; [|split; [done|split; [lia|done]]].
        intros k. rewrite lookup_empty. split; [by intros ?%elem_of_nil|].
        by intros [].
      * intros m i j a b ea eb _ _ Ha. by cbn in Ha.
    + intros k e Hk. by rewrite lookup_empty in Hk.
    + destruct Hord as (_ & _ & Hco & _ & Hord).
      pose proof Hco as (Hm & Hnd & Hdom & _).
      exists s, m. split; [exact Heq|]. split; [exact Hm|].
      split; [exact Hnd|]. split; [exact Hdom|]. split; [exact Hord|].
      intros k e He. by apply (descending_head_latest (inst s) m k e).
  - intros s now paddr m e Hal Hm He Hst.
    rewrite (insert_hit now paddr s m e) by done.
    eexists. split; [done|]. by destruct (inst s).
  - intros s now paddr m get rel Hg Hr Hal Hm He Hout.
    pose proof (insert_miss now paddr s m get rel Hg Hr Hal Hm He Hout)
      as Hmiss.
    cbn zeta in Hmiss. rewrite Hmiss. clear Hmiss.
    eexists _, _. split; [reflexivity|].
    cbn [inst with_inst with_trace].
    split; [by destruct (capacity_check (inst s)).1|].
    split; [by rewrite lookup_insert_eq|].
    split; [by destruct (capacity_check (inst s)).1|].
    split; [by destruct (capacity_check (inst s)).1|].
    intros Hco. rewrite (capacity_check_coherent _ _ Hco). cbn [fst].
    by destruct (inst s).
Qed.

Lemma lru_ordered_by_creation_witness :
  (∃ s m, session 4 fresh_buffers 0
            (inserts [(1%Z, 0x1000%N); (2%Z, 0x2000%N); (3%Z, 0x1000%N)])
            (boot (guest false 0)) = Some (tt, s)
          ∧ vmi.memory_cache (inst s) = Some m
          ∧ NoDup (vmi.memory_cache_lru (inst s))
          ∧ (∀ k, k ∈ vmi.memory_cache_lru (inst s) ↔ is_Some (m !! k))
          ∧ lru_descending entry.last_updated (inst s)
          ∧ (∀ k e, m !! k = Some e →
               ∃ h eh, head (vmi.memory_cache_lru (inst s)) = Some h
                       ∧ m !! h = Some eh
                       ∧ (entry.last_updated e ≤ entry.last_updated eh)%Z))
  ∧ (∃ s', memory_cache_insert 3 0x1000 (warm_cache 0) = Some (0xB000%N, s')
           ∧ vmi.memory_cache_lru (inst s') = [0x1000%N]
           ∧ trace s' = trace (warm_cache 0))
  ∧ (∃ s' m', memory_cache_insert 2 0x2000 (warm_cache 0)
              = Some (0xB001%N, s')
              ∧ vmi.memory_cache (inst s') = Some m'
              ∧ m' !! 0x2000%N = Some (entry.mk 0x2000 0x1000 2 2 0xB001)
              ∧ vmi.memory_cache_lru (inst s') = [0x2000%N; 0x1000%N]).
Proof.
  assert (StronglySorted Z.le
            ([(1%Z, 0x1000%N); (2%Z, 0x2000%N); (3%Z, 0x1000%N)].*1))
    as Hsorted.
  { cbn. repeat first [ apply SSorted_nil | apply SSorted_cons
                      | apply List.Forall_nil | apply List.Forall_cons ]; lia. }
  destruct (lru_ordered_by_creation 4 fresh_buffers (guest false 0)
              [(1%Z, 0x1000%N); (2%Z, 0x2000%N); (3%Z, 0x1000%N)]
              eq_refl Hsorted) as (Hsession & Hhit & Hmiss).
  split; [exact Hsession|]. split.
  - destruct (Hhit (warm_cache 0) 3%Z 0x1000%N
                {[ 0x1000%N := entry.mk 0x1000 0x1000 0 0 0xB000 ]}
                (entry.mk 0x1000 0x1000 0 0 0xB000)
                eq_refl eq_refl eq_refl eq_refl)
      as (s' & Heq & Hlru & _ & Htr).
    exists s'. split; [exact Heq|]. split; [exact Hlru|exact Htr].
  - destruct (Hmiss (warm_cache 0) 2%Z 0x2000%N
                {[ 0x1000%N := entry.mk 0x1000 0x1000 0 0 0xB000 ]}
                fresh_buffers host_release
                eq_refl eq_refl eq_refl eq_refl eq_refl eq_refl)
      as (s' & m' & Heq & Hm' & Hentry & _ & _ & Hkept).
    exists s', m'. split; [exact Heq|]. split; [exact Hm'|].
    split; [exact Hentry|]. apply Hkept.
    split; [reflexivity|]. split; [apply NoDup_singleton|].
    split; [|split; [reflexivity|split; [cbn; lia|cbn; lia]]].
    intros k. cbn. rewrite list_elem_of_singleton.
    destruct (decide (k = 0x1000%N)) as [->|Hne].
    + rewrite lookup_singleton_eq. split; [by eexists|done].
    + rewrite lookup_singleton_ne by done. split; [done|by intros []].
Defined.

(** ** Capacity eviction *)

Lemma coherent_size (v : vmi.t) (m : gmap N entry.t) :
  coherent v m → base.size m = base.length (vmi.memory_cache_lru v).
Proof.
  intros (Hm & Hnd & Hdom & _).
  rewrite <- size_dom, <- (size_list_to_set (C := gset N)) by done.
  f_equal. apply set_eq. intros k.
  by rewrite elem_of_dom, elem_of_list_to_set, Hdom.
Qed.

Lemma cacheable_same_guest (v v0 : vmi.t) (p : N) :
  same_guest v v0 → cacheable v0 p → cacheable v p.
Proof.
  intros (Hps & Hsz & Hhvm) [Hal Hin].
  unfold cacheable, paddr_aligned, out_of_range in *.
  by rewrite Hps, Hsz, Hhvm.
Qed.

Lemma omap_buffer_of (m : gmap N entry.t) (P : list N) (F : list (N * N)) :
  Forall2 (λ p b, buffer_of m p = Some b) P F → omap (buffer_of m) P = F.
Proof.
  induction 1 as [|p b P F Hp _ IH]; [done|]. cbn. by rewrite Hp, IH.
Qed.

Lemma fill_step (v0 : vmi.t) (now : Z) (q : N) (P : list N) (s : state)
    (m : gmap N entry.t) :
  filled v0 P s m →
  (N.of_nat (base.length P) < vmi.memory_cache_size_max (inst s))%N →
  q ∉ P → cacheable v0 q →
  ∃ buf s' m', memory_cache_insert now q s = Some (buf, s')
               ∧ filled v0 (P ++ [q]) s' m'
               ∧ vmi.memory_cache_size_max (inst s')
                 = vmi.memory_cache_size_max (inst s).
Proof.
  intros ([g Hg] & [r Hr] & Hco & Hsame & Hlru & Hrel & Hfet) Hroom Hq Hok.
  pose proof Hco as (Hm & Hnd & Hdom & Hsz & Hle & Hmax).
  apply (cacheable_same_guest _ _ _ Hsame) in Hok as [Hal Hin].
  assert (m !! q = None) as He.
  { apply eq_None_not_Some. rewrite <- Hdom, Hlru, elem_of_reverse. done. }
  pose proof (insert_miss_coherent now q s m g r Hg Hr Hco Hal He Hin) as Hmiss.
  cbn zeta in Hmiss. destruct Hmiss as [-> Hco'].
  assert ((vmi.memory_cache_size_max (inst s)
           <=? vmi.memory_cache_size (inst s))%N = false) as Hfull.
  { apply N.leb_gt. rewrite Hsz, Hlru, length_reverse. lia. }
  unfold kept, gone in *. rewrite Hfull in *.
  cbn [evict_table evict_trace foldl] in *.
  eexists _, _, _. split; [done|]. split; [|by destruct (inst s)].
  split; [by eexists|]. split; [by eexists|]. split; [exact Hco'|].
  split; [by destruct (inst s)|].
  split; [destruct (inst s); cbn in *; by rewrite reverse_snoc, Hlru|].
  cbn [trace with_trace]. rewrite released_app, fetched_app, Hrel. cbn.
  split; [done|].
  apply Forall2_app.
  - eapply Forall2_impl; [exact Hfet|]. intros p b Hp. unfold buffer_of in *.
    rewrite lookup_insert_ne; [done|]. intros <-. by rewrite He in Hp.
  - constructor; [|constructor]. unfold buffer_of.
    by rewrite lookup_insert_eq.
Qed.

Lemma fill_run (v0 : vmi.t) (now_of : N → Z) (Q P : list N) (s : state)
    (m : gmap N entry.t) :
  filled v0 P s m →
  NoDup (P ++ Q) → Forall (cacheable v0) Q →
  (N.of_nat (base.length (P ++ Q)) ≤ vmi.memory_cache_size_max (inst s))%N →
  ∃ s' m', run_calls (insert_pages now_of Q) s = Some (tt, s')
           ∧ filled v0 (P ++ Q) s' m'
           ∧ vmi.memory_cache_size_max (inst s')
             = vmi.memory_cache_size_max (inst s).
Proof.
  revert P s m. induction Q as [|q Q IH]; intros P s m Hfill Hnd Hok Hroom.
  - exists s, m. by rewrite app_nil_r.
  - apply Forall_cons in Hok as [Hq Hok].
    rewrite length_app in Hroom. cbn in Hroom.
    destruct (fill_step v0 (now_of q) q P s m Hfill)
      as (buf & s1 & m1 & Heq & Hfill1 & Hmax1); [lia| |done|].
    { apply list.NoDup_app in Hnd as (_ & Hdisj & _). intros Hin.
      apply (Hdisj q Hin). by left. }
    unfold insert_pages, run_calls. cbn [fmap list_fmap for_each run_call].
    unfold bind at 1. unfold bind at 1. rewrite Heq. unfold ret.
    rewrite (cons_middle q P Q), app_assoc in Hnd |- *.
    destruct (IH (P ++ [q]) s1 m1 Hfill1 Hnd Hok) as (s' & m' & Hrun & Hfill' & Hmax').
    { rewrite Hmax1, !length_app. cbn. lia. }
    exists s', m'. split; [exact Hrun|]. split; [done|]. congruence.
Qed.

Lemma released_Fetch (paddr len buf : N) (tr : list event) :
  released (Fetch paddr len buf :: tr) = released tr.
Proof. done. Qed.

Lemma fetched_Fetch (paddr len buf : N) (tr : list event) :
  fetched (Fetch paddr len buf :: tr) = (buf, len) :: fetched tr.
Proof. done. Qed.

(** The insert that finds a filled cache at its capacity. *)
Lemma overflow_step (v0 : vmi.t) (now : Z) (q : N) (P : list N) (s : state)
    (m : gmap N entry.t) :
  filled v0 P s m →
  N.of_nat (base.length P) = vmi.memory_cache_size_max (inst s) →
  q ∉ P → cacheable v0 q →
  let h := N.to_nat (vmi.memory_cache_size_max (inst s) / 2) in
  let n := (base.length P - h)%nat in
  ∃ buf s' m',
    memory_cache_insert now q s = Some (buf, s')
    ∧ coherent (inst s') m'
    ∧ vmi.memory_cache_size (inst s') = N.of_nat (S h)
    ∧ vmi.memory_cache_lru (inst s') = reverse (drop n (P ++ [q]))
    ∧ base.length (fetched (trace s')) = S (base.length P)
    ∧ released (trace s') = take n (fetched (trace s')).
Proof.
  intros ([g Hg] & [r Hr] & Hco & Hsame & Hlru & Hrel & Hfet) Hfull Hq Hok.
  cbn zeta.
  pose proof Hco as (Hm & Hnd & Hdom & Hsz & Hle & Hmax).
  apply (cacheable_same_guest _ _ _ Hsame) in Hok as [Hal Hin].
  assert (m !! q = None) as He.
  { apply eq_None_not_Some. rewrite <- Hdom, Hlru, elem_of_reverse. done. }
  pose proof (insert_miss_coherent now q s m g r Hg Hr Hco Hal He Hin) as Hmiss.
  cbn zeta in Hmiss. destruct Hmiss as [-> Hco'].
  pose proof (kept_gone_NoDup _ Hnd) as (_ & Hndg & _).
  assert ((vmi.memory_cache_size_max (inst s)
           <=? vmi.memory_cache_size (inst s))%N = true) as Hevict.
  { apply N.leb_le. rewrite Hsz, Hlru, length_reverse. lia. }
  pose proof (half_le (vmi.memory_cache_size_max (inst s))) as Hhalf.
  unfold kept, gone in *. rewrite Hevict in *. rewrite Hlru in *.
  set (h := N.to_nat (vmi.memory_cache_size_max (inst s) / 2)) in *.
  assert (h ≤ base.length P)%nat as Hh by lia.
  assert (take h (reverse P) = reverse (drop (base.length P - h) P)) as Hkept.
  { rewrite reverse_drop. f_equal. lia. }
  assert (reverse (drop h (reverse P)) = take (base.length P - h) P) as Hgone.
  { by rewrite drop_reverse, reverse_involutive. }
  rewrite Hgone in *.
  eexists _, _, _. split; [done|]. split; [exact Hco'|].
  cbn [inst with_inst with_trace trace].
  split; [destruct (inst s); cbn; rewrite length_take, length_reverse;
          f_equal; lia|].
  split.
  { replace (vmi.memory_cache_lru _) with (q :: take h (reverse P))
      by by destruct (inst s).
    rewrite drop_app_le by lia. by rewrite reverse_snoc, Hkept. }
  rewrite fetched_app, released_app, Hrel, released_Fetch, fetched_Fetch.
  rewrite fetched_evict_trace, app_nil_l.
  rewrite released_evict_trace by done.
  pose proof (Forall2_length _ _ _ Hfet) as Hlen.
  split; [rewrite length_app; cbn; lia|].
  rewrite take_app_le by lia.
  apply omap_buffer_of. by apply Forall2_take.
Qed.

Lemma run_calls_app (l1 l2 : list call) (s : state) :
  run_calls (l1 ++ l2) s
  = match run_calls l1 s with
    | Some (_, s1) => run_calls l2 s1
    | None => None
    end.
Proof.
  revert s. induction l1 as [|c l1 IH]; intros s; [done|].
  unfold run_calls in *. cbn [app for_each]. unfold bind.
  destruct (run_call c s) as [[[] s1]|]; [apply IH|done].
Qed.

Lemma init_filled (MAX age : N) (g : get_data_t) (v0 : vmi.t) :
  (MAX < 2 ^ 32)%N →
  ∃ s, memory_cache_init MAX g host_release age (boot v0) = Some (tt, s)
       ∧ filled v0 [] s ∅
       ∧ vmi.memory_cache_size_max (inst s) = MAX.
Proof.
  intros Hmax. eexists. split; [done|]. split; [|done].
  split; [by eexists|]. split; [by eexists|]. cbn.
  split; [|done].
  split; [done|]. split; [constructor|].
  split; [|split; [done|split; [cbn; lia|done]]].
  intros k. rewrite lookup_empty. split; [by intros ?%elem_of_nil|].
  by intros [].
Qed.

(** C5, as stated, fails for an odd capacity: with room for three pages, a
    fourth insert leaves 3/2 + 1 = 2 pages in the cache and releases the
    other two, not 3/2 = 1. *)
Lemma odd_capacity_releases_more :
  ∃ s m, session 3 fresh_buffers 0
           [Insert 1 0x1000; Insert 2 0x2000; Insert 3 0x3000;
            Insert 4 0x4000]
           (boot (guest false 0)) = Some (tt, s)
         ∧ vmi.memory_cache (inst s) = Some m
         ∧ base.size m = N.to_nat (3 / 2 + 1)
         ∧ released (trace s) = [(0xB000, 0x1000); (0xB001, 0x1000)]%N
         ∧ base.length (released (trace s)) ≠ N.to_nat (3 / 2).
Proof.
  eexists _, _. split; [run_state (Some fresh_buffers) (Some host_release)|].
  split; [reflexivity|]. split; [reflexivity|].
  split; [reflexivity|]. cbn. discriminate.
Qed.

(** C5, amended. On a miss in a coherent cache the eviction runs exactly
    when [memory_cache_size >= memory_cache_size_max]: it then keeps the
    first [size_max / 2] keys of the lru list, removes the others from the
    table, last key of the list first, releasing their buffers in that
    order, and the insert leaves the counter at [size_max / 2 + 1];
    otherwise nothing is released and the counter grows by one.  So
    [size_max + 1] distinct cacheable pages inserted into a fresh cache
    leave the last [size_max / 2 + 1] of them in the cache and release the
    buffers of the first [size_max - size_max / 2], oldest first (that is
    [size_max / 2] of them when [size_max] is even). *)
Theorem eviction_halves (MAX age : N) (g : get_data_t) (v0 : vmi.t)
    (now_of : N → Z) (pages : list N) :
  (MAX < 2 ^ 32)%N →
  NoDup pages →
  Forall (cacheable v0) pages →
  base.length pages = S (N.to_nat MAX) →
  (∃ s m,
     session MAX g age (insert_pages now_of pages) (boot v0) = Some (tt, s)
     ∧ vmi.memory_cache (inst s) = Some m
     ∧ vmi.memory_cache_size (inst s) = (MAX / 2 + 1)%N
     ∧ base.size m = N.to_nat (MAX / 2 + 1)
     ∧ vmi.memory_cache_lru (inst s)
       = reverse (drop (N.to_nat (MAX - MAX / 2)) pages)
     ∧ (∀ k, is_Some (m !! k) ↔ k ∈ drop (N.to_nat (MAX - MAX / 2)) pages)
     ∧ base.length (fetched (trace s)) = S (N.to_nat MAX)
     ∧ released (trace s)
       = take (N.to_nat (MAX - MAX / 2)) (fetched (trace s))
     ∧ base.length (released (trace s)) = N.to_nat (MAX - MAX / 2))
  ∧ (∀ (now : Z) (p : N) (s : state) (m : gmap N entry.t),
       installed s → coherent (inst s) m → cacheable (inst s) p →
       m !! p = None →
       let max := vmi.memory_cache_size_max (inst s) in
       let lru := vmi.memory_cache_lru (inst s) in
       ∃ buf s' m',
         memory_cache_insert now p s = Some (buf, s')
         ∧ vmi.memory_cache (inst s') = Some m'
         ∧ ((max ≤ vmi.memory_cache_size (inst s))%N →
            vmi.memory_cache_lru (inst s') = p :: take (N.to_nat (max / 2)) lru
            ∧ vmi.memory_cache_size (inst s') = (max / 2 + 1)%N
            ∧ released (trace s')
              = released (trace s)
                ++ omap (buffer_of m) (reverse (drop (N.to_nat (max / 2)) lru))
            ∧ ∀ k, is_Some (m' !! k)
                   ↔ k = p ∨ k ∈ take (N.to_nat (max / 2)) lru)
         ∧ ((vmi.memory_cache_size (inst s) < max)%N →
            vmi.memory_cache_lru (inst s') = p :: lru
            ∧ vmi.memory_cache_size (inst s')
              = (vmi.memory_cache_size (inst s) + 1)%N
            ∧ released (trace s') = released (trace s)
            ∧ ∀ k, is_Some (m' !! k) ↔ k = p ∨ k ∈ lru)).
Proof.
  intros Hmax Hnd Hok Hlen. split.
  - destruct pages as [|q P _] using rev_ind; [done|].
    rewrite length_app in Hlen. cbn in Hlen.
    assert (base.length P = N.to_nat MAX) as HP by lia.
    apply Forall_app in Hok as [HokP Hq]. apply Forall_cons in Hq as [Hq _].
    destruct (init_filled MAX age g v0 Hmax) as (s0 & Hinit & Hfill0 & Hmax0).
    destruct (fill_run v0 now_of P [] s0 ∅ Hfill0)
      as (s1 & m1 & Hrun1 & Hfill1 & Hmax1).
    { cbn. by apply list.NoDup_app in Hnd as (? & _ & _). }
    { done. }
    { cbn. lia. }
    cbn [app] in Hfill1.
    pose proof (overflow_step v0 (now_of q) q P s1 m1 Hfill1) as Hover.
    cbn zeta in Hover. rewrite Hmax1, Hmax0 in Hover.
    destruct Hover as (buf & s2 & m2 & Hins & Hco2 & Hsz2 & Hlru2 & Hfet2 & Hrel2).
    { lia. }
    { apply list.NoDup_app in Hnd as (_ & Hdisj & _). intros Hin.
      apply (Hdisj q Hin). by left. }
    { done. }
    pose proof (half_le MAX) as Hhalf.
    assert (base.length P - N.to_nat (MAX / 2) = N.to_nat (MAX - MAX / 2))%nat
      as Hn by lia.
    rewrite Hn in *.
    exists s2, m2. split.
    { unfold session, bind at 1. rewrite Hinit.
      unfold insert_pages. rewrite fmap_app, run_calls_app.
      fold (insert_pages now_of P). rewrite Hrun1.
      unfold run_calls. cbn [fmap list_fmap for_each run_call].
      unfold bind at 1. unfold bind at 1. by rewrite Hins. }
    pose proof Hco2 as (Hm2 & Hnd2 & Hdom2 & _).
    split; [done|]. split; [lia|].
    split.
    { rewrite (coherent_size _ _ Hco2), Hlru2, length_reverse, length_drop.
      rewrite length_app. cbn. lia. }
    split; [done|].
    split; [intros k; by rewrite <- Hdom2, Hlru2, elem_of_reverse|].
    split; [lia|]. split; [done|].
    rewrite Hrel2, length_take. lia.
  - clear. intros now p s m ([g' Hg] & [r Hr] & _) Hco [Hal Hin] He. cbn zeta.
    pose proof (insert_miss_coherent now p s m g' r Hg Hr Hco Hal He Hin)
      as Hmiss.
    cbn zeta in Hmiss. destruct Hmiss as [-> Hco'].
    pose proof Hco as (Hm & Hnd & Hdom & Hsz & Hle & Hmax').
    pose proof Hco' as (Hm' & Hnd' & Hdom' & _).
    pose proof (kept_length _ _ Hco) as [_ Hkept].
    pose proof (kept_gone_NoDup _ Hnd) as (_ & Hndg & _).
    eexists _, _, _. split; [done|]. split; [exact Hm'|].
    cbn [inst with_inst trace with_trace].
    rewrite released_app, released_Fetch, released_evict_trace by done.
    assert (∀ l : list N,
      vmi.memory_cache_lru
        (vmi.with_memory_cache_size
           (N.of_nat (S (base.length (kept (inst s)))))
           (vmi.with_memory_cache_lru l
              (vmi.with_memory_cache
                 (Some (<[p := entry.mk p (vmi.page_size (inst s)) now now
                               (g' (inst s) (trace s) p
                                   (vmi.page_size (inst s)))]>
                          (evict_table m (gone (inst s))))) (inst s)))) = l)
      as Hlru by (intros l; by destruct (inst s)).
    rewrite Hlru in Hdom' |- *.
    assert (vmi.memory_cache_size
        (vmi.with_memory_cache_size
           (N.of_nat (S (base.length (kept (inst s)))))
           (vmi.with_memory_cache_lru (p :: kept (inst s))
              (vmi.with_memory_cache
                 (Some (<[p := entry.mk p (vmi.page_size (inst s)) now now
                               (g' (inst s) (trace s) p
                                   (vmi.page_size (inst s)))]>
                          (evict_table m (gone (inst s))))) (inst s))))
        = N.of_nat (S (base.length (kept (inst s))))) as ->
      by by destruct (inst s).
    unfold kept, gone in *. split.
    + intros Hfull. apply N.leb_le in Hfull. rewrite Hfull in *.
      split; [done|]. split; [lia|]. split; [done|].
      intros k. by rewrite <- Hdom', elem_of_cons.
    + intros Hroom. apply N.leb_gt in Hroom. rewrite Hroom in *.
      split; [done|]. split; [lia|]. split; [by rewrite app_nil_r|].
      intros k. by rewrite <- Hdom', elem_of_cons.
Qed.

Lemma eviction_halves_witness :
  ∃ s m, session 3 fresh_buffers 0
           (insert_pages (λ _, 0%Z) [0x1000; 0x2000; 0x3000; 0x4000]%N)
           (boot (guest false 0)) = Some (tt, s)
         ∧ vmi.memory_cache (inst s) = Some m
         ∧ vmi.memory_cache_size (inst s) = 2%N
         ∧ vmi.memory_cache_lru (inst s) = [0x4000; 0x3000]%N
         ∧ base.length (released (trace s)) = 2%nat.
Proof.
  assert (NoDup [0x1000; 0x2000; 0x3000; 0x4000]%N) as Hnd
    by (apply (bool_decide_unpack _); vm_compute; exact I).
  assert (Forall (cacheable (guest false 0))
            [0x1000; 0x2000; 0x3000; 0x4000]%N) as Hok
    by (repeat constructor).
  destruct (proj1 (eviction_halves 3 0 fresh_buffers (guest false 0)
                     (λ _, 0%Z) [0x1000; 0x2000; 0x3000; 0x4000]%N
                     eq_refl Hnd Hok eq_refl))
    as (s & m & Hrun & Hm & Hsz & _ & Hlru & _ & _ & _ & Hrel).
  exists s, m. split; [exact Hrun|]. split; [exact Hm|].
  split; [exact Hsz|]. split; [exact Hlru|]. exact Hrel.
Defined.

(** * Further properties of the cache *)

(** ** Alignment and bounds arithmetic *)

Lemma sub64_pow2 (k : N) : (k < 64)%N → sub64 (2 ^ k) 1 = N.ones k.
Proof.
  intros Hk. unfold sub64. rewrite N.ones_equiv.
  assert (0 < 2 ^ k < 2 ^ 64)%N as [Hpos Hlt].
  { split; [apply N.neq_0_lt_0, N.pow_nonzero; lia|].
    apply N.pow_lt_mono_r; lia. }
  replace (2 ^ k + 2 ^ 64 - 1)%N with (N.pred (2 ^ k) + 1 * 2 ^ 64)%N by lia.
  rewrite N.Div0.mod_add. apply N.mod_small. lia.
Qed.

Lemma testbit_above (p n i : N) :
  (p < 2 ^ n)%N → (n ≤ i)%N → N.testbit p i = false.
Proof.
  intros Hp Hi. rewrite <- (N.mod_small p (2 ^ n)) by done.
  by apply N.mod_pow2_bits_high.
Qed.

(** For a page size that is a power of two, the mask of
    [memory_cache_insert] and [memory_cache_remove] rounds a 64-bit address
    down to the start of its page. *)
Lemma paddr_aligned_pow2 (v : vmi.t) (k p : N) :
  vmi.page_size v = (2 ^ k)%N → (k < 64)%N → (p < 2 ^ 64)%N →
  paddr_aligned v p = (p / 2 ^ k * 2 ^ k)%N.
Proof.
  intros Hps Hk Hp. unfold paddr_aligned, not64. rewrite Hps, sub64_pow2 by done.
  apply N.bits_inj. intros i. rewrite N.land_spec.
  destruct (decide (i < k)%N) as [Hlow|Hhigh].
  - rewrite N.mul_pow2_bits_low by done.
    rewrite N.lnot_spec_low by lia. rewrite N.ones_spec_low by done.
    apply andb_false_r.
  - rewrite N.mul_pow2_bits_high by lia. rewrite N.div_pow2_bits.
    replace (i - k + k)%N with i by lia.
    destruct (decide (i < 64)%N) as [Hin|Hout].
    + rewrite N.lnot_spec_low by done. rewrite N.ones_spec_high by lia.
      apply andb_true_r.
    + rewrite (testbit_above p 64 i) by (done || lia). done.
Qed.

Lemma aligned_pow2_iff (v : vmi.t) (k p : N) :
  vmi.page_size v = (2 ^ k)%N → (k < 64)%N → (p < 2 ^ 64)%N →
  p = paddr_aligned v p ↔ (p mod vmi.page_size v)%N = 0%N.
Proof.
  intros Hps Hk Hp. rewrite (paddr_aligned_pow2 v k p) by done. rewrite Hps.
  pose proof (N.Div0.div_mod p (2 ^ k)) as Hdm.
  revert Hdm. generalize (p / 2 ^ k)%N (p mod 2 ^ k)%N (2 ^ k)%N.
  intros q r n Hdm. split; nia.
Qed.

(** X1. With a power-of-two page size the alignment mask clears the offset
    within the page, and the alignment test of insert and remove accepts
    exactly the multiples of the page size. *)
Theorem aligned_iff_page_multiple (v : vmi.t) (k p : N) :
  vmi.page_size v = (2 ^ k)%N → (k < 64)%N → (p < 2 ^ 64)%N →
  paddr_aligned v p = (p - p mod vmi.page_size v)%N
  ∧ (p = paddr_aligned v p ↔ (p mod vmi.page_size v)%N = 0%N).
Proof.
  intros Hps Hk Hp. split; [|by apply (aligned_pow2_iff v k p)].
  rewrite (paddr_aligned_pow2 v k p) by done. rewrite Hps.
  pose proof (N.Div0.div_mod p (2 ^ k)) as Hdm.
  pose proof (N.Div0.mod_le p (2 ^ k)) as Hle.
  revert Hdm Hle. generalize (p / 2 ^ k)%N (p mod 2 ^ k)%N (2 ^ k)%N.
  intros q r n Hdm Hle. nia.
Qed.

Lemma aligned_iff_page_multiple_witness :
  paddr_aligned (guest false 0) 0x1234 = 0x1000%N
  ∧ 0x1234%N ≠ paddr_aligned (guest false 0) 0x1234
  ∧ 0x2000%N = paddr_aligned (guest false 0) 0x2000.
Proof.
  assert (vmi.page_size (guest false 0) = (2 ^ 12)%N) as Hps by reflexivity.
  destruct (aligned_iff_page_multiple (guest false 0) 12 0x1234 Hps
              eq_refl eq_refl) as [Hdown Hiff].
  destruct (aligned_iff_page_multiple (guest false 0) 12 0x2000 Hps
              eq_refl eq_refl) as [_ Hiff'].
  split; [by rewrite Hdown|]. split.
  - intros Heq. apply Hiff in Heq. by vm_compute in Heq.
  - by apply Hiff'.
Defined.

(** X2. With a power-of-two page size, a request for an address that is not
    a multiple of the page size is refused by both operations: insert
    returns NULL, remove returns, and the state, trace included, is what it
    was, whatever it was (callbacks set or not, table there or not). *)
Theorem misaligned_request_refused (s : state) (now : Z) (k p : N) :
  vmi.page_size (inst s) = (2 ^ k)%N → (k < 64)%N → (p < 2 ^ 64)%N →
  (p mod vmi.page_size (inst s))%N ≠ 0%N →
  memory_cache_insert now p s = Some (0%N, s)
  ∧ memory_cache_remove p s = Some (tt, s).
Proof.
  intros Hps Hk Hp Hmod.
  pose proof (aligned_pow2_iff (inst s) k p Hps Hk Hp) as Hiff.
  assert (p ≠ paddr_aligned (inst s) p) as Hne by (intros ?%Hiff; done).
  split; [by apply insert_misaligned|by apply remove_misaligned].
Qed.

Lemma misaligned_request_refused_witness :
  memory_cache_insert 7 0x1001 (boot (guest false 0))
  = Some (0%N, boot (guest false 0))
  ∧ memory_cache_remove 0x1001 (boot (guest false 0))
    = Some (tt, boot (guest false 0)).
Proof.
  apply (misaligned_request_refused (boot (guest false 0)) 7 12 0x1001);
    [reflexivity|reflexivity|reflexivity|].
  vm_compute. discriminate.
Defined.

Lemma aligned_page_end (k p : N) :
  (k < 64)%N → (p < 2 ^ 64)%N → (p mod 2 ^ k)%N = 0%N →
  (p + 2 ^ k ≤ 2 ^ 64)%N.
Proof.
  intros Hk Hp Hmod.
  pose proof (N.Div0.div_mod p (2 ^ k)) as Hdm. rewrite Hmod, N.add_0_r in Hdm.
  assert (2 ^ 64 = 2 ^ (64 - k) * 2 ^ k)%N as Hsplit.
  { rewrite <- N.pow_add_r. f_equal. lia. }
  assert (0 < 2 ^ k)%N as Hpos by (apply N.neq_0_lt_0, N.pow_nonzero; lia).
  assert (p / 2 ^ k < 2 ^ (64 - k))%N as Hq.
  { apply N.Div0.div_lt_upper_bound. rewrite N.mul_comm, <- Hsplit. done. }
  rewrite Hsplit. revert Hdm Hq Hpos.
  generalize (p / 2 ^ k)%N (2 ^ k)%N (2 ^ (64 - k))%N. intros q n t. nia.
Qed.

(** X3. For an aligned page the 64-bit arithmetic of the bounds check of
    [create_new_entry] does not wrap: on a hardware-virtualized guest it
    refuses exactly the pages whose last byte is at an address above
    [vmi->size], and it refuses nothing on another guest.  A miss on a
    refused page returns NULL with the state unchanged and no callback
    called. *)
Theorem bounds_check_exact (s : state) (now : Z) (k p : N) :
  vmi.page_size (inst s) = (2 ^ k)%N → (k < 64)%N → (p < 2 ^ 64)%N →
  (p mod vmi.page_size (inst s))%N = 0%N →
  out_of_range (inst s) p (vmi.page_size (inst s))
  = vmi.hvm (inst s) && (vmi.size (inst s) <? p + vmi.page_size (inst s) - 1)%N
  ∧ (g_hash_table_lookup (vmi.memory_cache (inst s)) p = None →
     vmi.hvm (inst s) = true →
     (vmi.size (inst s) < p + vmi.page_size (inst s) - 1)%N →
     memory_cache_insert now p s = Some (0%N, s)).
Proof.
  intros Hps Hk Hp Hmod.
  assert (sub64 (add64 p (vmi.page_size (inst s))) 1
          = (p + vmi.page_size (inst s) - 1)%N) as Hlast.
  { rewrite Hps in *. pose proof (aligned_page_end k p Hk Hp Hmod) as Hend.
    assert (0 < 2 ^ k)%N as Hpos by (apply N.neq_0_lt_0, N.pow_nonzero; lia).
    unfold sub64, add64. revert Hend Hpos. generalize (2 ^ k)%N. intros n Hend Hpos.
    destruct (decide (p + n = 2 ^ 64)%N) as [Heq|Hne].
    - rewrite Heq, N.Div0.mod_same. cbn [N.add]. rewrite N.mod_small by lia. lia.
    - rewrite (N.mod_small (p + n)) by lia.
      replace (p + n + 2 ^ 64 - 1)%N with (p + n - 1 + 1 * 2 ^ 64)%N by lia.
      rewrite N.Div0.mod_add. apply N.mod_small. lia. }
  assert (out_of_range (inst s) p (vmi.page_size (inst s))
          = vmi.hvm (inst s)
            && (vmi.size (inst s) <? p + vmi.page_size (inst s) - 1)%N) as Hout
    by (unfold out_of_range; by rewrite Hlast).
  split; [done|]. intros Hmiss Hhvm Hpast.
  apply insert_out_of_range; [|done|].
  - by apply (aligned_pow2_iff (inst s) k p Hps Hk Hp).
  - rewrite Hout, Hhvm. cbn. by apply N.ltb_lt.
Qed.

Lemma bounds_check_exact_witness :
  out_of_range (guest true 0x2000) 0x2000 0x1000 = true
  ∧ memory_cache_insert 0 0x2000 (empty_hvm_cache 0x2000)
    = Some (0%N, empty_hvm_cache 0x2000).
Proof.
  destruct (bounds_check_exact (empty_hvm_cache 0x2000) 0 12 0x2000
              eq_refl eq_refl eq_refl eq_refl) as [Hout Hins].
  split; [exact Hout|]. apply Hins; [reflexivity|reflexivity|].
  vm_compute. reflexivity.
Defined.

(** ** What an insert returns *)

(** X4. In a cache in use, [memory_cache_insert] never faults, and what it
    returns is either NULL with the state unchanged (the request was
    misaligned, or missed and failed the bounds check) or the buffer of the
    entry that the table holds for the address when the call returns, an
    entry whose [last_used] is the time of the call. *)
Theorem insert_returns_cached_buffer (now : Z) (p : N) (s : state) :
  installed s →
  ∃ buf s',
    memory_cache_insert now p s = Some (buf, s')
    ∧ installed s'
    ∧ ((buf = 0%N ∧ s' = s)
       ∨ ∃ m' e, vmi.memory_cache (inst s') = Some m'
                 ∧ m' !! p = Some e
                 ∧ entry.data e = buf
                 ∧ entry.last_used e = now).
Proof.
  intros ([g Hg] & [r Hr] & [m Hm]).
  assert (installed s) as Hs by (by repeat split; eexists).
  destruct (decide (p = paddr_aligned (inst s) p)) as [Hal|Hal];
    [|rewrite insert_misaligned by done; eexists _, _; split; [done|];
      split; [done|by left]].
  destruct (m !! p) as [e|] eqn:He.
  - destruct (stale (inst s) now e) eqn:Hst.
    + rewrite (insert_refresh now p s m e g r) by done.
      eexists _, _. split; [done|]. split; [by repeat split; eexists|].
      right. eexists _, _. split; [done|]. by rewrite lookup_insert_eq.
    + rewrite (insert_hit now p s m e) by done.
      eexists _, _. split; [done|]. split; [by repeat split; eexists|].
      right. eexists _, _. split; [done|]. by rewrite lookup_insert_eq.
  - destruct (out_of_range (inst s) p (vmi.page_size (inst s))) eqn:Hout.
    + rewrite insert_out_of_range by (done || by rewrite Hm).
      eexists _, _. split; [done|]. split; [done|by left].
    + rewrite (insert_miss now p s m g r) by done.
      eexists _, _. split; [done|]. split; [by repeat split; eexists|].
      right. eexists _, _. split; [done|]. by rewrite lookup_insert_eq.
Qed.

Lemma insert_returns_cached_buffer_witness :
  ∃ buf s', memory_cache_insert 5 0x3000 (empty_cache fresh_buffers 0)
            = Some (buf, s')
            ∧ installed s'.
Proof.
  destruct (insert_returns_cached_buffer 5 0x3000
              (empty_cache fresh_buffers 0))
    as (buf & s' & Heq & Hin & _).
  - repeat split; eexists; reflexivity.
  - by exists buf, s'.
Defined.

(** X5. A page that was just cached is served from the cache: after a miss
    on [p] has fetched a buffer, a second insert of [p], made while the
    buffer is not older than the age limit (or with no age limit), returns
    the same buffer, calls no callback, and leaves the lru list and the
    counter as the first insert left them. *)
Theorem second_insert_hits (now now' : Z) (p : N) (s : state)
    (m : gmap N entry.t) :
  installed s →
  vmi.memory_cache (inst s) = Some m →
  m !! p = None →
  cacheable (inst s) p →
  vmi.memory_cache_age (inst s) = 0%N
  ∨ (now' - now ≤ Z.of_N (vmi.memory_cache_age (inst s)))%Z →
  ∃ buf s1 s2,
    memory_cache_insert now p s = Some (buf, s1)
    ∧ memory_cache_insert now' p s1 = Some (buf, s2)
    ∧ trace s2 = trace s1
    ∧ vmi.memory_cache_lru (inst s2) = vmi.memory_cache_lru (inst s1)
    ∧ vmi.memory_cache_size (inst s2) = vmi.memory_cache_size (inst s1).
Proof.
  intros ([g Hg] & [r Hr] & _) Hm He [Hal Hin] Hfresh.
  rewrite (insert_miss now p s m g r) by done.
  set (e := entry.mk _ _ _ _ _). set (s1 := with_trace _ _).
  assert (∃ v1, v1 = (capacity_check (inst s)).1
                ∧ vmi.page_size v1 = vmi.page_size (inst s)
                ∧ vmi.memory_cache_age v1 = vmi.memory_cache_age (inst s))
    as (v1 & Hv1 & Hps & Hage).
  { eexists. split; [done|]. unfold capacity_check.
    destruct (_ <=? _)%N; [|done].
    by pose proof (clean_cache_loop_frame (inst s) []) as (_ & _ & -> & -> & _). }
  assert (vmi.page_size (inst s1) = vmi.page_size (inst s)) as Hps1.
  { change (vmi.page_size (inst s1))
      with (vmi.page_size (capacity_check (inst s)).1). by rewrite <- Hv1. }
  assert (vmi.memory_cache_age (inst s1) = vmi.memory_cache_age (inst s))
    as Hage1.
  { change (vmi.memory_cache_age (inst s1))
      with (vmi.memory_cache_age (capacity_check (inst s)).1).
    by rewrite <- Hv1. }
  eexists _, s1, _. split; [done|].
  rewrite (insert_hit now' p s1
             (<[p:=e]> (evict_table m (capacity_check (inst s)).2)) e);
    cycle 1.
  - unfold paddr_aligned in *. by rewrite Hps1.
  - reflexivity.
  - apply lookup_insert_eq.
  - unfold stale. rewrite Hage1. destruct Hfresh as [->|Hle]; [done|].
    apply andb_false_intro2. apply Z.ltb_ge. cbn. lia.
  - split; [done|]. by destruct (inst s1).
Qed.

Lemma second_insert_hits_witness :
  ∃ buf s1 s2,
    memory_cache_insert 1 0x1000 (empty_cache fresh_buffers 10)
    = Some (buf, s1)
    ∧ memory_cache_insert 11 0x1000 s1 = Some (buf, s2)
    ∧ trace s2 = trace s1.
Proof.
  destruct (second_insert_hits 1 11 0x1000 (empty_cache fresh_buffers 10) ∅)
    as (buf & s1 & s2 & H1 & H2 & Htr & _).
  - repeat split; eexists; reflexivity.
  - reflexivity.
  - reflexivity.
  - split; reflexivity.
  - right. cbn. lia.
  - by exists buf, s1, s2.
Defined.

(** ** Removal, refresh and teardown *)

Lemma capacity_check_frame (v : vmi.t) :
  vmi.memory_cache (capacity_check v).1 = vmi.memory_cache v
  ∧ vmi.memory_cache_size_max (capacity_check v).1
    = vmi.memory_cache_size_max v
  ∧ vmi.memory_cache_age (capacity_check v).1 = vmi.memory_cache_age v
  ∧ vmi.page_size (capacity_check v).1 = vmi.page_size v
  ∧ vmi.size (capacity_check v).1 = vmi.size v
  ∧ vmi.hvm (capacity_check v).1 = vmi.hvm v.
Proof.
  unfold capacity_check. destruct (_ <=? _)%N; [|done].
  apply clean_cache_loop_frame.
Qed.

(** X6. [memory_cache_remove] of an aligned address takes its entry out of
    the table, releasing the buffer if there was one, so that the next
    insert of that address misses: it fetches the page again and caches the
    new buffer. *)
Theorem insert_after_remove_refetches (now : Z) (p : N) (s : state)
    (m : gmap N entry.t) :
  installed s →
  vmi.memory_cache (inst s) = Some m →
  cacheable (inst s) p →
  ∃ s1 s2 m2 buf,
    memory_cache_remove p s = Some (tt, s1)
    ∧ g_hash_table_lookup (vmi.memory_cache (inst s1)) p = None
    ∧ released (trace s1) = released (trace s) ++ option_list (buffer_of m p)
    ∧ fetched (trace s1) = fetched (trace s)
    ∧ memory_cache_insert now p s1 = Some (buf, s2)
    ∧ fetched (trace s2)
      = fetched (trace s) ++ [(buf, vmi.page_size (inst s))]
    ∧ vmi.memory_cache (inst s2) = Some m2
    ∧ m2 !! p = Some (entry.mk p (vmi.page_size (inst s)) now now buf).
Proof.
  intros ([g Hg] & [r Hr] & _) Hm [Hal Hin].
  rewrite remove_aligned, (g_hash_table_remove_eq p s r m) by done.
  set (s1 := match m !! p with Some _ => _ | None => _ end).
  assert (get_data_callback s1 = Some g ∧ release_data_callback s1 = Some r
          ∧ vmi.memory_cache (inst s1) = Some (base.delete p m)
          ∧ vmi.page_size (inst s1) = vmi.page_size (inst s)
          ∧ vmi.hvm (inst s1) = vmi.hvm (inst s)
          ∧ vmi.size (inst s1) = vmi.size (inst s)
          ∧ released (trace s1)
            = released (trace s) ++ option_list (buffer_of m p)
          ∧ fetched (trace s1) = fetched (trace s))
    as (Hg1 & Hr1 & Hm1 & Hps1 & Hhvm1 & Hsz1 & Hrel1 & Hfet1).
  { unfold s1, buffer_of. destruct (m !! p) as [e|] eqn:He.
    - cbn [inst with_inst trace with_trace get_data_callback
           release_data_callback fmap option_fmap option_map option_list].
      rewrite released_app, fetched_app.
      split; [done|]. split; [done|]. split; [by destruct (inst s)|].
      split; [by destruct (inst s)|]. split; [by destruct (inst s)|].
      split; [by destruct (inst s)|]. split; [done|].
      apply app_nil_r.
    - cbn [fmap option_fmap option_map option_list].
      rewrite app_nil_r, delete_id by done. done. }
  assert (p = paddr_aligned (inst s1) p) as Hal1
    by (unfold paddr_aligned in *; by rewrite Hps1).
  assert (out_of_range (inst s1) p (vmi.page_size (inst s1)) = false) as Hin1
    by (unfold out_of_range in *; by rewrite Hps1, Hhvm1, Hsz1).
  pose proof (insert_miss now p s1 (base.delete p m) g r Hg1 Hr1 Hal1 Hm1
                (lookup_delete_eq m p) Hin1) as Hmiss.
  cbn zeta in Hmiss. clearbody s1.
  eexists s1, _, _, _. split; [done|].
  split; [by rewrite Hm1; apply lookup_delete_eq|].
  split; [done|]. split; [done|]. split; [exact Hmiss|].
  cbn [trace with_trace inst with_inst].
  rewrite fetched_app, fetched_Fetch, fetched_evict_trace, Hfet1, Hps1.
  split; [done|]. split; [reflexivity|]. apply lookup_insert_eq.
Qed.

Lemma insert_after_remove_refetches_witness :
  ∃ s1 s2 buf,
    memory_cache_remove 0x1000 (empty_cache fresh_buffers 0) = Some (tt, s1)
    ∧ memory_cache_insert 3 0x1000 s1 = Some (buf, s2)
    ∧ fetched (trace s2) = [(buf, 0x1000%N)].
Proof.
  destruct (insert_after_remove_refetches 3 0x1000
              (empty_cache fresh_buffers 0) ∅)
    as (s1 & s2 & m2 & buf & Hrm & _ & _ & _ & Hins & Hf2 & _).
  - repeat split; eexists; reflexivity.
  - reflexivity.
  - split; reflexivity.
  - exists s1, s2, buf. split; [exact Hrm|]. split; [exact Hins|]. exact Hf2.
Defined.

Lemma g_list_remove_link_Permutation (l : list N) (link : option nat) :
  (g_list_remove_link l link).2 ++ (g_list_remove_link l link).1 ≡ₚ l.
Proof.
  unfold g_list_remove_link. destruct link as [i|]; [|done].
  destruct (l !! i) as [k|] eqn:Hk; [|done]. cbn [fst snd].
  symmetry. by apply delete_Permutation.
Qed.

(** X7. A hit on a stale entry (an age limit is set and the buffer is older
    than it) refreshes the entry in place: the old buffer is released with
    the entry's length, one fetch is made for the entry's address and
    length, the entry gets the new buffer and both stamps are set to now.
    The table keeps its keys, the counter is unchanged and the lru list
    holds the same keys as before. *)
Theorem refresh_replaces_buffer (now : Z) (p : N) (s : state)
    (m : gmap N entry.t) (e : entry.t) :
  installed s →
  p = paddr_aligned (inst s) p →
  vmi.memory_cache (inst s) = Some m →
  m !! p = Some e →
  vmi.memory_cache_age (inst s) ≠ 0%N →
  (Z.of_N (vmi.memory_cache_age (inst s)) < now - entry.last_updated e)%Z →
  ∃ buf s',
    memory_cache_insert now p s = Some (buf, s')
    ∧ trace s' = trace s ++ [Release (entry.data e) (entry.length e);
                             Fetch (entry.paddr e) (entry.length e) buf]
    ∧ vmi.memory_cache (inst s')
      = Some (<[p := entry.mk (entry.paddr e) (entry.length e) now now buf]> m)
    ∧ vmi.memory_cache_lru (inst s') ≡ₚ vmi.memory_cache_lru (inst s)
    ∧ vmi.memory_cache_size (inst s') = vmi.memory_cache_size (inst s).
Proof.
  intros ([g Hg] & [r Hr] & _) Hal Hm He Hage Hold.
  assert (stale (inst s) now e = true) as Hst.
  { unfold stale. apply andb_true_intro. split.
    - apply negb_true_iff. by apply N.eqb_neq.
    - by apply Z.ltb_lt. }
  pose proof (insert_refresh now p s m e g r Hg Hr Hal Hm He Hst) as Hre.
  cbn zeta in Hre. eexists _, _. split; [exact Hre|].
  cbn [trace with_trace inst with_inst].
  split; [by rewrite <- app_assoc|]. split; [by destruct (inst s)|].
  split; [|by destruct (inst s)].
  etrans; [|apply (g_list_remove_link_Permutation
                     (vmi.memory_cache_lru (inst s))
                     (g_list_find_custom (vmi.memory_cache_lru (inst s))
                        (entry.paddr e) g_int64_equal))].
  by destruct (inst s).
Qed.

Lemma refresh_replaces_buffer_witness :
  ∃ buf s',
    memory_cache_insert 2 0x1000 (warm_cache 1) = Some (buf, s')
    ∧ trace s' = [Fetch 0x1000 0x1000 0xB000; Release 0xB000 0x1000;
                  Fetch 0x1000 0x1000 buf].
Proof.
  destruct (refresh_replaces_buffer 2 0x1000 (warm_cache 1)
              {[ 0x1000%N := entry.mk 0x1000 0x1000 0 0 0xB000 ]}
              (entry.mk 0x1000 0x1000 0 0 0xB000))
    as (buf & s' & Hins & Htr & _).
  - repeat split; eexists; reflexivity.
  - reflexivity.
  - reflexivity.
  - reflexivity.
  - discriminate.
  - reflexivity.
  - exists buf, s'. split; [exact Hins|exact Htr].
Defined.

(** ** Invariants of a session *)

Lemma coherent_fields (v v' : vmi.t) (m m' : gmap N entry.t) :
  coherent v m →
  vmi.memory_cache v' = Some m' →
  (∀ k, is_Some (m' !! k) ↔ is_Some (m !! k)) →
  vmi.memory_cache_lru v' ≡ₚ vmi.memory_cache_lru v →
  vmi.memory_cache_size v' = vmi.memory_cache_size v →
  vmi.memory_cache_size_max v' = vmi.memory_cache_size_max v →
  coherent v' m'.
Proof.
  intros (Hm & Hnd & Hdom & Hsz & Hle & Hmax) Hm' Hkeys Hlru Hsz' Hmax'.
  split; [done|]. split; [by rewrite Hlru|].
  split; [intros k; by rewrite Hlru, Hkeys|].
  rewrite Hsz', Hmax', Hlru. done.
Qed.

Lemma is_Some_insert_present (m : gmap N entry.t) (p : N) (e e' : entry.t)
    (k : N) :
  m !! p = Some e → is_Some (<[p := e']> m !! k) ↔ is_Some (m !! k).
Proof.
  intros He. destruct (decide (k = p)) as [->|Hne].
  - rewrite lookup_insert_eq, He. split; by eexists.
  - by rewrite lookup_insert_ne.
Qed.

Lemma insert_keeps_coherent (now : Z) (p : N) (s : state)
    (m : gmap N entry.t) :
  installed s → coherent (inst s) m →
  ∃ buf s' m',
    memory_cache_insert now p s = Some (buf, s')
    ∧ installed s' ∧ coherent (inst s') m'
    ∧ vmi.memory_cache_size_max (inst s') = vmi.memory_cache_size_max (inst s).
Proof.
  intros ([g Hg] & [r Hr] & _) Hco.
  assert (installed s) as Hs
    by (destruct Hco as [Hm _]; by repeat split; eexists).
  pose proof Hco as (Hm & _).
  destruct (decide (p = paddr_aligned (inst s) p)) as [Hal|Hal];
    [|rewrite insert_misaligned by done; by eexists _, s, m].
  destruct (m !! p) as [e|] eqn:He.
  - destruct (stale (inst s) now e) eqn:Hst.
    + pose proof (insert_refresh now p s m e g r Hg Hr Hal Hm He Hst) as Hre.
      cbn zeta in Hre. rewrite Hre. eexists _, _, _. split; [done|].
      split; [by repeat split; eexists|].
      cbn [inst with_inst with_trace]. split; [|by destruct (inst s)].
      eapply (coherent_fields (inst s)); [done|reflexivity| | | |].
      * intros k. by apply is_Some_insert_present with e.
      * etrans; [|apply (g_list_remove_link_Permutation
                           (vmi.memory_cache_lru (inst s))
                           (g_list_find_custom (vmi.memory_cache_lru (inst s))
                              (entry.paddr e) g_int64_equal))].
        by destruct (inst s).
      * by destruct (inst s).
      * by destruct (inst s).
    + rewrite (insert_hit now p s m e) by done.
      eexists _, _, _. split; [done|].
      split; [by repeat split; eexists|].
      cbn [inst with_inst]. split; [|by destruct (inst s)].
      eapply (coherent_fields (inst s)); [done|reflexivity| | | |].
      * intros k. by apply is_Some_insert_present with e.
      * by destruct (inst s).
      * by destruct (inst s).
      * by destruct (inst s).
  - destruct (out_of_range (inst s) p (vmi.page_size (inst s))) eqn:Hout.
    + rewrite insert_out_of_range by (done || by rewrite Hm).
      by eexists _, s, m.
    + pose proof (insert_miss_coherent now p s m g r Hg Hr Hco Hal He Hout)
        as Hmiss.
      cbn zeta in Hmiss. destruct Hmiss as [-> Hco'].
      eexists _, _, _. split; [done|].
      split; [by repeat split; eexists|]. split; [exact Hco'|].
      by destruct (inst s).
Qed.

Lemma run_inserts_keep_coherent (calls : list (Z * N)) (s : state)
    (m : gmap N entry.t) :
  installed s → coherent (inst s) m →
  ∃ s' m', run_calls (inserts calls) s = Some (tt, s')
           ∧ installed s' ∧ coherent (inst s') m'
           ∧ vmi.memory_cache_size_max (inst s')
             = vmi.memory_cache_size_max (inst s).
Proof.
  revert s m. induction calls as [|[now p] calls IH]; intros s m Hs Hco.
  - by exists s, m.
  - destruct (insert_keeps_coherent now p s m Hs Hco)
      as (buf & s1 & m1 & Heq & Hs1 & Hco1 & Hmax1).
    unfold inserts, run_calls. cbn [fmap list_fmap for_each run_call fst snd].
    unfold bind at 1. unfold bind at 1. rewrite Heq. unfold ret.
    destruct (IH s1 m1 Hs1 Hco1) as (s' & m' & Hrun & Hs' & Hco' & Hmax').
    exists s', m'. split; [exact Hrun|]. split; [done|]. split; [done|].
    congruence.
Qed.

(** X8. As long as the host only inserts, whatever the age limit and the
    clock, table, lru list and counter stay in step after every call: the
    lru list holds no key twice, it holds exactly the keys of the table,
    the counter is the number of entries, and that number is at most the
    capacity (at most one for a capacity of zero). *)
Theorem inserts_keep_cache_coherent (MAX age : N) (g : get_data_t)
    (v0 : vmi.t) (calls : list (Z * N)) :
  (MAX < 2 ^ 32)%N →
  ∃ s m,
    session MAX g age (inserts calls) (boot v0) = Some (tt, s)
    ∧ vmi.memory_cache (inst s) = Some m
    ∧ NoDup (vmi.memory_cache_lru (inst s))
    ∧ (∀ k, k ∈ vmi.memory_cache_lru (inst s) ↔ is_Some (m !! k))
    ∧ base.size m = base.length (vmi.memory_cache_lru (inst s))
    ∧ vmi.memory_cache_size (inst s) = N.of_nat (base.size m)
    ∧ (vmi.memory_cache_size (inst s) ≤ N.max 1 MAX)%N.
Proof.
  intros Hmax.
  destruct (init_filled MAX age g v0 Hmax) as (s0 & Hinit & Hfill & Hmax0).
  destruct Hfill as (Hg0 & Hr0 & Hco0 & _).
  assert (installed s0) as Hs0.
  { destruct Hco0 as [Hm0 _]. split; [done|]. split; [done|]. by eexists. }
  destruct (run_inserts_keep_coherent calls s0 ∅ Hs0 Hco0)
    as (s & m & Hrun & _ & Hco & Hmaxs).
  exists s, m. split.
  { unfold session, bind at 1. by rewrite Hinit. }
  pose proof (coherent_size _ _ Hco) as Hsize.
  destruct Hco as (Hm & Hnd & Hdom & Hsz & Hle & _).
  rewrite Hmaxs, Hmax0 in Hle. rewrite Hsize.
  done.
Qed.

Lemma inserts_keep_cache_coherent_witness :
  ∃ s m,
    session 2 fresh_buffers 1
      (inserts [(0%Z, 0x1000%N); (5%Z, 0x1000%N); (6%Z, 0x2000%N);
                (7%Z, 0x3000%N)])
      (boot (guest false 0)) = Some (tt, s)
    ∧ vmi.memory_cache (inst s) = Some m
    ∧ vmi.memory_cache_size (inst s) = N.of_nat (base.size m)
    ∧ (vmi.memory_cache_size (inst s) ≤ 2)%N.
Proof.
  destruct (inserts_keep_cache_coherent 2 1 fresh_buffers (guest false 0)
              [(0%Z, 0x1000%N); (5%Z, 0x1000%N); (6%Z, 0x2000%N);
               (7%Z, 0x3000%N)] eq_refl)
    as (s & m & Hrun & Hm & _ & _ & _ & Hsz & Hle).
  exists s, m. split; [exact Hrun|]. split; [exact Hm|].
  split; [exact Hsz|]. exact Hle.
Defined.

Lemma capacity_check_counted (v : vmi.t) (m : gmap N entry.t) :
  counted v m →
  capacity_check v
  = (vmi.with_memory_cache_size (N.of_nat (base.length (kept v)))
       (vmi.with_memory_cache_lru (kept v) v),
     gone v)
  ∧ (N.of_nat (S (base.length (kept v)))
     ≤ N.max 1 (vmi.memory_cache_size_max v))%N.
Proof.
  intros (Hm & Hdom & Hsz & Hle & Hmax).
  pose proof (N.Div0.mul_div_le (vmi.memory_cache_size_max v) 2) as Hhalf.
  unfold capacity_check, kept, gone.
  destruct (vmi.memory_cache_size_max v <=? vmi.memory_cache_size v)%N eqn:Hfull.
  - apply N.leb_le in Hfull.
    destruct (clean_cache_loop_eq v []) as (-> & _); [lia|].
    unfold clean_cache_count.
    set (h := (vmi.memory_cache_size_max v / 2)%N) in *.
    rewrite clean_cache_turns_eq by lia.
    replace (base.length (vmi.memory_cache_lru v)
             - N.to_nat (vmi.memory_cache_size v - h))%nat
      with (N.to_nat h) by lia.
    rewrite length_take.
    replace (N.of_nat (N.to_nat h `min` base.length (vmi.memory_cache_lru v)))
      with h by lia.
    split; [|lia]. f_equal. f_equal. lia.
  - apply N.leb_gt in Hfull. split; [|lia]. rewrite <- Hsz. by destruct v.
Qed.

Lemma keys_le_length (m : gmap N entry.t) (l : list N) :
  (∀ k, is_Some (m !! k) → k ∈ l) → (base.size m ≤ base.length l)%nat.
Proof.
  intros Hdom. rewrite <- size_dom.
  trans (base.size (list_to_set l : gset N)).
  - apply subseteq_size. intros k Hk. apply elem_of_list_to_set, Hdom.
    by apply elem_of_dom.
  - clear. induction l as [|x l IH]; [by rewrite list_to_set_nil, size_empty|].
    rewrite list_to_set_cons, size_union_alt, size_singleton. cbn.
    assert (list_to_set l ∖ {[x]} ⊆ (list_to_set l : gset N)) as Hsub
      by by apply subseteq_difference_l.
    apply subseteq_size in Hsub. lia.
Qed.

Lemma insert_keeps_counted (now : Z) (p : N) (s : state)
    (m : gmap N entry.t) :
  installed s → counted (inst s) m →
  ∃ buf s' m',
    memory_cache_insert now p s = Some (buf, s')
    ∧ installed s' ∧ counted (inst s') m'
    ∧ vmi.memory_cache_size_max (inst s') = vmi.memory_cache_size_max (inst s).
Proof.
  intros ([g Hg] & [r Hr] & _) Hcn.
  pose proof Hcn as (Hm & Hdom & Hsz & Hle & Hmax).
  assert (installed s) as Hs by (by repeat split; eexists).
  destruct (decide (p = paddr_aligned (inst s) p)) as [Hal|Hal];
    [|rewrite insert_misaligned by done; by eexists _, s, m].
  destruct (m !! p) as [e|] eqn:He.
  - destruct (stale (inst s) now e) eqn:Hst.
    + pose proof (insert_refresh now p s m e g r Hg Hr Hal Hm He Hst) as Hre.
      cbn zeta in Hre. rewrite Hre. eexists _, _, _. split; [done|].
      split; [by repeat split; eexists|].
      cbn [inst with_inst with_trace]. split; [|by destruct (inst s)].
      assert (g_list_concat
                (g_list_remove_link (vmi.memory_cache_lru (inst s))
                   (g_list_find_custom (vmi.memory_cache_lru (inst s))
                      (entry.paddr e) g_int64_equal)).2
                (g_list_remove_link (vmi.memory_cache_lru (inst s))
                   (g_list_find_custom (vmi.memory_cache_lru (inst s))
                      (entry.paddr e) g_int64_equal)).1
              ≡ₚ vmi.memory_cache_lru (inst s)) as Hperm
        by apply g_list_remove_link_Permutation.
      revert Hperm. generalize (g_list_concat
                (g_list_remove_link (vmi.memory_cache_lru (inst s))
                   (g_list_find_custom (vmi.memory_cache_lru (inst s))
                      (entry.paddr e) g_int64_equal)).2
                (g_list_remove_link (vmi.memory_cache_lru (inst s))
                   (g_list_find_custom (vmi.memory_cache_lru (inst s))
                      (entry.paddr e) g_int64_equal)).1).
      intros lru' Hperm.
      split; [reflexivity|].
      split.
      { intros k Hk. apply (is_Some_insert_present m p e) in Hk; [|done].
        apply Hdom in Hk. destruct (inst s). cbn in *. by rewrite Hperm. }
      destruct (inst s). cbn in *. by rewrite Hperm.
    + rewrite (insert_hit now p s m e) by done.
      eexists _, _, _. split; [done|].
      split; [by repeat split; eexists|].
      cbn [inst with_inst]. split; [|by destruct (inst s)].
      split; [reflexivity|].
      split; [|by destruct (inst s)].
      intros k Hk. apply (is_Some_insert_present m p e) in Hk; [|done].
      apply Hdom in Hk. by destruct (inst s).
  - destruct (out_of_range (inst s) p (vmi.page_size (inst s))) eqn:Hout.
    + rewrite insert_out_of_range by (done || by rewrite Hm).
      by eexists _, s, m.
    + rewrite (insert_miss now p s m g r) by done.
      destruct (capacity_check_counted _ _ Hcn) as [-> Hlen].
      cbn [fst snd].
      eexists _, _, _. split; [done|].
      split; [by repeat split; eexists|].
      cbn [inst with_inst with_trace]. split; [|by destruct (inst s)].
      split; [reflexivity|].
      split.
      { intros k. destruct (decide (k = p)) as [->|Hne].
        - intros _. destruct (inst s). cbn. by left.
        - rewrite lookup_insert_ne by done. rewrite lookup_evict_table.
          destruct (decide (k ∈ gone (inst s))) as [Hgone|Hgone];
            [by intros []|].
          intros Hk. apply Hdom in Hk. rewrite kept_gone in Hk.
          apply elem_of_app in Hk as [Hk|Hk]; [|done].
          destruct (inst s). cbn in *. by right. }
      assert (add32 (N.of_nat (base.length (kept (inst s)))) 1
              = N.of_nat (S (base.length (kept (inst s))))) as Hadd.
      { rewrite add32_succ by lia. lia. }
      destruct (inst s). cbn in *. rewrite Hadd. split; [lia|]. split; [lia|done].
Qed.

Lemma remove_keeps_counted (p : N) (s : state) (m : gmap N entry.t) :
  installed s → counted (inst s) m →
  ∃ s' m',
    memory_cache_remove p s = Some (tt, s')
    ∧ installed s' ∧ counted (inst s') m'
    ∧ vmi.memory_cache_size_max (inst s') = vmi.memory_cache_size_max (inst s).
Proof.
  intros ([g Hg] & [r Hr] & _) Hcn.
  pose proof Hcn as (Hm & Hdom & Hsz & Hle & Hmax).
  assert (installed s) as Hs by (by repeat split; eexists).
  destruct (decide (p = paddr_aligned (inst s) p)) as [Hal|Hal];
    [|rewrite remove_misaligned by done; by eexists s, m].
  rewrite remove_aligned, (g_hash_table_remove_eq p s r m) by done.
  destruct (m !! p) as [e|] eqn:He; [|by eexists s, m].
  eexists _, _. split; [done|]. split; [by repeat split; eexists|].
  cbn [inst with_inst with_trace]. split; [|by destruct (inst s)].
  split; [reflexivity|].
  split; [|by destruct (inst s)].
  intros k Hk. destruct (decide (k = p)) as [->|Hne].
  - rewrite lookup_delete_eq in Hk. by destruct Hk.
  - rewrite lookup_delete_ne in Hk by done. apply Hdom in Hk.
    by destruct (inst s).
Qed.

Lemma run_calls_keep_counted (calls : list call) (s : state)
    (m : gmap N entry.t) :
  installed s → counted (inst s) m →
  ∃ s' m', run_calls calls s = Some (tt, s')
           ∧ installed s' ∧ counted (inst s') m'
           ∧ vmi.memory_cache_size_max (inst s')
             = vmi.memory_cache_size_max (inst s).
Proof.
  revert s m. induction calls as [|c calls IH]; intros s m Hs Hcn.
  - by exists s, m.
  - unfold run_calls. cbn [for_each]. unfold bind at 1.
    destruct c as [now p|p]; cbn [run_call].
    + destruct (insert_keeps_counted now p s m Hs Hcn)
        as (buf & s1 & m1 & Heq & Hs1 & Hcn1 & Hmax1).
      unfold bind at 1. rewrite Heq. unfold ret.
      destruct (IH s1 m1 Hs1 Hcn1) as (s' & m' & Hrun & Hs' & Hcn' & Hmax').
      exists s', m'. split; [exact Hrun|]. split; [done|]. split; [done|].
      congruence.
    + destruct (remove_keeps_counted p s m Hs Hcn)
        as (s1 & m1 & Heq & Hs1 & Hcn1 & Hmax1).
      rewrite Heq.
      destruct (IH s1 m1 Hs1 Hcn1) as (s' & m' & Hrun & Hs' & Hcn' & Hmax').
      exists s', m'. split; [exact Hrun|]. split; [done|]. split; [done|].
      congruence.
Qed.

(** X9. Whatever inserts and removes the host makes, the cache never holds
    more pages than its capacity (one page for a capacity of zero): after
    every call the counter is the length of the lru list, every key of the
    table is in that list, and the number of entries of the table is at
    most the counter, which is at most the capacity. *)
Theorem cache_never_exceeds_capacity (MAX age : N) (g : get_data_t)
    (v0 : vmi.t) (calls : list call) :
  (MAX < 2 ^ 32)%N →
  ∃ s m,
    session MAX g age calls (boot v0) = Some (tt, s)
    ∧ vmi.memory_cache (inst s) = Some m
    ∧ (∀ k, is_Some (m !! k) → k ∈ vmi.memory_cache_lru (inst s))
    ∧ vmi.memory_cache_size (inst s)
      = N.of_nat (base.length (vmi.memory_cache_lru (inst s)))
    ∧ (N.of_nat (base.size m) ≤ vmi.memory_cache_size (inst s))%N
    ∧ (vmi.memory_cache_size (inst s) ≤ N.max 1 MAX)%N.
Proof.
  intros Hmax.
  destruct (init_filled MAX age g v0 Hmax) as (s0 & Hinit & Hfill & Hmax0).
  destruct Hfill as (Hg0 & Hr0 & Hco0 & _).
  assert (installed s0) as Hs0.
  { destruct Hco0 as [Hm0 _]. split; [done|]. split; [done|]. by eexists. }
  assert (counted (inst s0) ∅) as Hcn0.
  { destruct Hco0 as (Hm0 & _ & Hdom0 & Hsz0 & Hle0 & Hmx0).
    split; [done|]. split; [intros k Hk; by apply Hdom0|done]. }
  destruct (run_calls_keep_counted calls s0 ∅ Hs0 Hcn0)
    as (s & m & Hrun & _ & Hcn & Hmaxs).
  exists s, m. split.
  { unfold session, bind at 1. by rewrite Hinit. }
  destruct Hcn as (Hm & Hdom & Hsz & Hle & _).
  pose proof (keys_le_length m _ Hdom) as Hkeys.
  rewrite Hmaxs, Hmax0 in Hle.
  split; [done|]. split; [done|]. split; [done|]. split; [lia|done].
Qed.

Lemma cache_never_exceeds_capacity_witness :
  ∃ s m,
    session 2 fresh_buffers 0
      [Insert 1 0x1000; Remove 0x1000; Insert 2 0x1000; Insert 3 0x2000;
       Insert 4 0x3000]
      (boot (guest false 0)) = Some (tt, s)
    ∧ vmi.memory_cache (inst s) = Some m
    ∧ (N.of_nat (base.size m) ≤ vmi.memory_cache_size (inst s))%N
    ∧ (vmi.memory_cache_size (inst s) ≤ 2)%N.
Proof.
  destruct (cache_never_exceeds_capacity 2 0 fresh_buffers (guest false 0)
              [Insert 1 0x1000; Remove 0x1000; Insert 2 0x1000;
               Insert 3 0x2000; Insert 4 0x3000] eq_refl)
    as (s & m & Hrun & Hm & _ & _ & Hsize & Hle).
  exists s, m. split; [exact Hrun|]. split; [exact Hm|].
  split; [exact Hsize|]. exact Hle.
Defined.

Lemma cacheable_to_guest (v v0 : vmi.t) (p : N) :
  same_guest v v0 → cacheable v p → cacheable v0 p.
Proof.
  intros (Hps & Hsz & Hhvm) [Hal Hin].
  unfold cacheable, paddr_aligned, out_of_range in *.
  by rewrite <- Hps, <- Hsz, <- Hhvm.
Qed.

Lemma evict_trace_ok (v0 : vmi.t) (m : gmap N entry.t) (lst : list N) :
  (∀ k e, m !! k = Some e → entry.length e = vmi.page_size v0) →
  Forall (event_ok v0) (evict_trace m lst).
Proof.
  revert m. induction lst as [|k lst IH]; intros m Hlen; [constructor|].
  cbn. destruct (m !! k) as [e|] eqn:He; [|by apply IH].
  constructor; [by apply (Hlen k)|]. apply IH.
  intros k' e' Hk'. apply lookup_delete_Some in Hk' as [_ Hk'].
  by apply (Hlen k').
Qed.

Lemma insert_keeps_well_keyed (v0 : vmi.t) (now : Z) (p : N) (s : state)
    (m : gmap N entry.t) :
  installed s → well_keyed v0 s m →
  ∃ buf s' m',
    memory_cache_insert now p s = Some (buf, s')
    ∧ installed s' ∧ well_keyed v0 s' m'.
Proof.
  intros ([g Hg] & [r Hr] & _) Hwk.
  pose proof Hwk as (Hsame & Hm & Hent & Htr).
  assert (installed s) as Hs by (by repeat split; eexists).
  destruct (decide (p = paddr_aligned (inst s) p)) as [Hal|Hal];
    [|rewrite insert_misaligned by done; by eexists _, s, m].
  destruct (m !! p) as [e|] eqn:He.
  - destruct (Hent p e He) as (Hpa & Hlen & Hok).
    destruct (stale (inst s) now e) eqn:Hst.
    + pose proof (insert_refresh now p s m e g r Hg Hr Hal Hm He Hst) as Hre.
      cbn zeta in Hre. rewrite Hre. eexists _, _, _. split; [done|].
      split; [by repeat split; eexists|].
      split; [by destruct (inst s)|]. split; [reflexivity|].
      cbn [trace with_trace]. split.
      * intros k e' Hk. destruct (decide (k = p)) as [->|Hne].
        -- rewrite lookup_insert_eq in Hk. injection Hk as <-. cbn. done.
        -- rewrite lookup_insert_ne in Hk by done. by apply Hent.
      * rewrite <- app_assoc. apply Forall_app. split; [done|].
        constructor; [done|]. constructor; [|constructor].
        cbn. by rewrite Hpa.
    + rewrite (insert_hit now p s m e) by done.
      eexists _, _, _. split; [done|].
      split; [by repeat split; eexists|].
      split; [by destruct (inst s)|]. split; [reflexivity|].
      cbn [trace with_inst]. split; [|done].
      intros k e' Hk. destruct (decide (k = p)) as [->|Hne].
      * rewrite lookup_insert_eq in Hk. injection Hk as <-. cbn. done.
      * rewrite lookup_insert_ne in Hk by done. by apply Hent.
  - destruct (out_of_range (inst s) p (vmi.page_size (inst s))) eqn:Hout.
    + rewrite insert_out_of_range by (done || by rewrite Hm).
      by eexists _, s, m.
    + rewrite (insert_miss now p s m g r) by done.
      pose proof (capacity_check_frame (inst s)) as (_ & _ & _ & Hps & Hsz & Hhvm).
      assert (cacheable v0 p) as Hok
        by (by apply (cacheable_to_guest (inst s))).
      pose proof Hsame as (Hps0 & Hsz0 & Hhvm0).
      eexists _, _, _. split; [done|].
      split; [by repeat split; eexists|].
      split.
      { cbn [inst with_inst with_trace]. unfold same_guest.
        destruct (capacity_check (inst s)) as [v1 lst]. cbn in *.
        destruct v1. cbn in *. by rewrite Hps, Hsz, Hhvm. }
      split; [reflexivity|].
      cbn [trace with_trace]. split.
      * intros k e' Hk. destruct (decide (k = p)) as [->|Hne].
        -- rewrite lookup_insert_eq in Hk. injection Hk as <-. cbn. done.
        -- rewrite lookup_insert_ne in Hk by done.
           rewrite lookup_evict_table in Hk.
           destruct (decide _); [done|]. by apply Hent.
      * apply Forall_app. split; [done|].
        constructor; [done|]. apply evict_trace_ok.
        intros k e Hk. by apply (Hent k e Hk).
Qed.

Lemma remove_keeps_well_keyed (v0 : vmi.t) (p : N) (s : state)
    (m : gmap N entry.t) :
  installed s → well_keyed v0 s m →
  ∃ s' m',
    memory_cache_remove p s = Some (tt, s')
    ∧ installed s' ∧ well_keyed v0 s' m'.
Proof.
  intros ([g Hg] & [r Hr] & _) Hwk.
  pose proof Hwk as (Hsame & Hm & Hent & Htr).
  assert (installed s) as Hs by (by repeat split; eexists).
  destruct (decide (p = paddr_aligned (inst s) p)) as [Hal|Hal];
    [|rewrite remove_misaligned by done; by eexists s, m].
  rewrite remove_aligned, (g_hash_table_remove_eq p s r m) by done.
  destruct (m !! p) as [e|] eqn:He; [|by eexists s, m].
  eexists _, _. split; [done|]. split; [by repeat split; eexists|].
  split; [by destruct (inst s)|]. split; [reflexivity|].
  cbn [trace with_trace]. split.
  - intros k e' Hk. apply lookup_delete_Some in Hk as [_ Hk]. by apply Hent.
  - apply Forall_app. split; [done|]. constructor; [|constructor].
    by apply (Hent p e He).
Qed.

(** X10. Whatever inserts and removes the host makes, with whatever age
    limit and clock, the cache only ever fetches pages that pass its
    alignment and bounds checks, always with the page size as length, and
    only ever releases with the page size as length; every entry of the
    table is kept under its own address and has the page size as its
    length. *)
Theorem callbacks_get_whole_pages (MAX age : N) (g : get_data_t)
    (v0 : vmi.t) (calls : list call) :
  ∃ s m,
    session MAX g age calls (boot v0) = Some (tt, s)
    ∧ Forall (event_ok v0) (trace s)
    ∧ vmi.memory_cache (inst s) = Some m
    ∧ ∀ k e, m !! k = Some e →
        entry.paddr e = k ∧ entry.length e = vmi.page_size v0
        ∧ cacheable v0 k.
Proof.
  assert (∀ calls s m, installed s → well_keyed v0 s m →
            ∃ s' m', run_calls calls s = Some (tt, s')
                     ∧ installed s' ∧ well_keyed v0 s' m') as Hrun.
  { clear calls. intros calls.
    induction calls as [|c calls IH]; intros s m Hs Hwk.
    - by exists s, m.
    - unfold run_calls. cbn [for_each]. unfold bind at 1.
      destruct c as [now p|p]; cbn [run_call].
      + destruct (insert_keeps_well_keyed v0 now p s m Hs Hwk)
          as (buf & s1 & m1 & Heq & Hs1 & Hwk1).
        unfold bind at 1. rewrite Heq. unfold ret. by apply (IH s1 m1).
      + destruct (remove_keeps_well_keyed v0 p s m Hs Hwk)
          as (s1 & m1 & Heq & Hs1 & Hwk1).
        rewrite Heq. by apply (IH s1 m1). }
  unfold session, bind at 1. cbn [memory_cache_init boot inst trace].
  set (s0 := mk_state _ _ _ _).
  destruct (Hrun calls s0 ∅) as (s & m & Heq & _ & Hwk).
  - by repeat split; eexists.
  - split; [done|]. split; [done|]. split; [|constructor].
    intros k e Hk. by rewrite lookup_empty in Hk.
  - destruct Hwk as (_ & Hm & Hent & Htr). by exists s, m.
Qed.

(** ** After [memory_cache_destroy] *)

(** X11. [memory_cache_destroy] leaves an instance with no table, an empty
    lru list, counter, capacity and age limit at zero, and both callback
    pointers NULL.  On that state a second destroy and any remove change
    nothing; an insert that fails the alignment or bounds check still
    returns NULL, and an insert of a page that passes them faults, for it
    calls through the NULL fetch pointer. *)
Theorem destroy_is_final (s : state) (m : gmap N entry.t) :
  is_Some (release_data_callback s) →
  vmi.memory_cache (inst s) = Some m →
  ∃ s1,
    memory_cache_destroy s = Some (tt, s1)
    ∧ vmi.memory_cache (inst s1) = None
    ∧ vmi.memory_cache_lru (inst s1) = []
    ∧ vmi.memory_cache_size (inst s1) = 0%N
    ∧ vmi.memory_cache_size_max (inst s1) = 0%N
    ∧ vmi.memory_cache_age (inst s1) = 0%N
    ∧ get_data_callback s1 = None
    ∧ release_data_callback s1 = None
    ∧ memory_cache_destroy s1 = Some (tt, s1)
    ∧ (∀ p, memory_cache_remove p s1 = Some (tt, s1))
    ∧ (∀ now p, cacheable (inst s) p → memory_cache_insert now p s1 = None)
    ∧ (∀ now p, ¬ cacheable (inst s) p →
         memory_cache_insert now p s1 = Some (0%N, s1)).
Proof.
  intros [r Hr] Hm. rewrite (destroy_eq s r m) by done.
  eexists. split; [done|].
  set (tr1 := trace s ++ _).
  destruct s as [v g r' tr]. destruct v as [ps sz hv mc lru age n mx ky pg].
  cbn in Hm. subst mc. clear Hr. cbn [inst].
  unfold vmi.with_memory_cache_size_max, vmi.with_memory_cache_size,
    vmi.with_memory_cache_age, vmi.with_memory_cache,
    vmi.with_memory_cache_lru.
  cbn [vmi.page_size vmi.size vmi.hvm vmi.memory_cache vmi.memory_cache_lru
       vmi.memory_cache_age vmi.memory_cache_size vmi.memory_cache_size_max
       vmi.last_used_page_key vmi.last_used_page].
  clearbody tr1.
  do 7 (split; [reflexivity|]).
  split; [reflexivity|]. split; [|split].
  - intros p. unfold memory_cache_remove, bind, get_vmi. cbn [inst].
    by destruct (negb _).
  - intros now p [Hal Hin]. unfold memory_cache_insert, bind, get_vmi.
    cbn [inst]. unfold cacheable, paddr_aligned, out_of_range in *.
    cbn in Hal, Hin. apply N.eqb_eq in Hal.
    unfold paddr_aligned. cbn [vmi.page_size vmi.memory_cache]. rewrite Hal.
    cbn [negb g_hash_table_lookup].
    unfold create_new_entry, bind, get_vmi.
    cbn [inst vmi.hvm vmi.size]. by rewrite Hin.
  - intros now p Hno. unfold memory_cache_insert, bind, get_vmi. cbn [inst].
    unfold paddr_aligned. cbn [vmi.page_size vmi.memory_cache].
    destruct (p =? _)%N eqn:Hal; [|done]. cbn [negb g_hash_table_lookup].
    unfold create_new_entry, bind, get_vmi. cbn [inst vmi.hvm vmi.size].
    destruct (hv && _) eqn:Hin; [done|]. exfalso. apply Hno.
    apply N.eqb_eq in Hal. by split.
Qed.

Lemma destroy_is_final_witness :
  ∃ s1, memory_cache_destroy (warm_cache 0) = Some (tt, s1)
        ∧ memory_cache_destroy s1 = Some (tt, s1)
        ∧ memory_cache_insert 9 0x1000 s1 = None
        ∧ memory_cache_insert 9 0x1001 s1 = Some (0%N, s1).
Proof.
  destruct (destroy_is_final (warm_cache 0)
              {[ 0x1000%N := entry.mk 0x1000 0x1000 0 0 0xB000 ]})
    as (s1 & Hd & _ & _ & _ & _ & _ & _ & _ & Hd2 & _ & Hfault & Hnull).
  - by eexists.
  - reflexivity.
  - exists s1. split; [exact Hd|]. split; [exact Hd2|]. split.
    + apply Hfault. split; reflexivity.
    + apply Hnull. intros [Hal _]. discriminate Hal.
Defined.

(** ** The single slot, continued *)

Lemma slot_insert_keeps_balance (g : get_data_t) (p : N) (s : state) :
  (∀ v tr paddr len, g v tr paddr len ≠ 0%N) →
  p ≠ 0%N →
  get_data_callback s = Some g →
  is_Some (release_data_callback s) →
  (vmi.last_used_page (inst s) ≠ 0%N → vmi.last_used_page_key (inst s) ≠ 0%N) →
  fetched (trace s) = released (trace s) ++ slot_buffer (inst s) →
  ∃ buf s',
    SingleSlot.memory_cache_insert p s = Some (buf, s')
    ∧ get_data_callback s' = Some g
    ∧ is_Some (release_data_callback s')
    ∧ (vmi.last_used_page (inst s') ≠ 0%N →
       vmi.last_used_page_key (inst s') ≠ 0%N)
    ∧ fetched (trace s') = released (trace s') ++ slot_buffer (inst s').
Proof.
  intros Hnn Hp Hg [r Hr] Hkey Hbal.
  unfold SingleSlot.memory_cache_insert, bind, get_vmi.
  destruct ((p =? vmi.last_used_page_key (inst s))%N
            && negb (vmi.last_used_page (inst s) =? 0)%N) eqn:Hhit.
  { eexists _, s. split; [done|]. split; [done|]. split; [by eexists|]. done. }
  unfold slot_buffer in Hbal.
  destruct (vmi.last_used_page (inst s) =? 0)%N eqn:Hpage.
  - rewrite andb_false_r. unfold ret.
    erewrite get_memory_data_eq by done. unfold update_vmi.
    eexists _, _. split; [done|]. split; [done|]. split; [by eexists|].
    split; [by destruct (inst s)|].
    cbn [trace with_trace with_inst inst]. unfold slot_buffer.
    rewrite fetched_app, released_app, Hbal, !app_nil_r. cbn.
    destruct (inst s). cbn.
    destruct (g _ _ _ _ =? 0)%N eqn:Hbuf; [|done].
    apply N.eqb_eq in Hbuf. by apply Hnn in Hbuf.
  - apply N.eqb_neq in Hpage. apply Hkey, N.eqb_neq in Hpage as Hk.
    rewrite Hk. cbn [negb andb].
    erewrite release_data_eq by done.
    erewrite get_memory_data_eq by done. unfold update_vmi.
    eexists _, _. split; [done|]. split; [done|]. split; [by eexists|].
    split; [by destruct (inst s)|].
    cbn [trace with_trace with_inst inst]. unfold slot_buffer.
    rewrite !fetched_app, !released_app, Hbal. cbn. rewrite !app_nil_r.
    destruct (inst s). cbn.
    destruct (g _ _ _ _ =? 0)%N eqn:Hbuf; [|done].
    apply N.eqb_eq in Hbuf. by apply Hnn in Hbuf.
Qed.

(** X12. In the single-slot build at most one buffer is live: when the
    fetch callback never returns NULL, the slot starts empty and page 0 is
    never asked for, after any run of inserts every buffer fetched has been
    released, in the order of the fetches, except the one the slot holds;
    [memory_cache_destroy] releases that one and empties the slot. *)
Theorem single_slot_holds_one_buffer (g : get_data_t) (v0 : vmi.t)
    (pages : list N) :
  (∀ v tr paddr len, g v tr paddr len ≠ 0%N) →
  vmi.last_used_page v0 = 0%N →
  Forall (λ p, p ≠ 0%N) pages →
  ∃ s s',
    slot_session g pages (boot v0) = Some (tt, s)
    ∧ fetched (trace s) = released (trace s) ++ slot_buffer (inst s)
    ∧ SingleSlot.memory_cache_destroy s = Some (tt, s')
    ∧ fetched (trace s') = released (trace s')
    ∧ vmi.last_used_page (inst s') = 0%N
    ∧ vmi.last_used_page_key (inst s') = 0%N.
Proof.
  intros Hnn Hempty Hpages.
  assert (∀ pages s,
    Forall (λ p, p ≠ 0%N) pages →
    get_data_callback s = Some g →
    is_Some (release_data_callback s) →
    (vmi.last_used_page (inst s) ≠ 0%N →
     vmi.last_used_page_key (inst s) ≠ 0%N) →
    fetched (trace s) = released (trace s) ++ slot_buffer (inst s) →
    ∃ s', slot_inserts pages s = Some (tt, s')
          ∧ is_Some (release_data_callback s')
          ∧ (vmi.last_used_page (inst s') ≠ 0%N →
             vmi.last_used_page_key (inst s') ≠ 0%N)
          ∧ fetched (trace s') = released (trace s') ++ slot_buffer (inst s'))
    as Hrun.
  { clear pages Hpages. intros pages.
    induction pages as [|p pages IH]; intros s Hps Hg Hr Hkey Hbal.
    - by exists s.
    - apply Forall_cons in Hps as [Hp Hps].
      destruct (slot_insert_keeps_balance g p s Hnn Hp Hg Hr Hkey Hbal)
        as (buf & s1 & Heq & Hg1 & Hr1 & Hkey1 & Hbal1).
      unfold slot_inserts. cbn [for_each]. unfold bind at 1. unfold bind at 1.
      rewrite Heq. unfold ret. by apply IH. }
  unfold slot_session, bind at 1. cbn [SingleSlot.memory_cache_init boot inst trace].
  set (s0 := mk_state _ _ _ _).
  destruct (Hrun pages s0 Hpages) as (s & Heq & [r Hr] & Hkey & Hbal).
  - done.
  - by eexists.
  - intros Hne. exfalso. apply Hne. exact Hempty.
  - unfold slot_buffer, s0. cbn [inst trace]. by rewrite Hempty.
  - assert (∃ s', SingleSlot.memory_cache_destroy s = Some (tt, s')
                  ∧ fetched (trace s') = released (trace s')
                  ∧ vmi.last_used_page (inst s') = 0%N
                  ∧ vmi.last_used_page_key (inst s') = 0%N)
      as (s' & Hd & Hbal' & Hpage' & Hkey').
    { unfold SingleSlot.memory_cache_destroy, bind, get_vmi.
      unfold slot_buffer in Hbal.
      destruct (vmi.last_used_page (inst s) =? 0)%N eqn:Hpage.
      - rewrite andb_false_r. unfold ret, update_vmi.
        eexists. split; [done|]. cbn [trace inst with_inst].
        split; [by rewrite Hbal, app_nil_r|]. by destruct (inst s).
      - apply N.eqb_neq in Hpage. apply Hkey, N.eqb_neq in Hpage as Hk.
        rewrite Hk. cbn [negb andb]. erewrite release_data_eq by done.
        unfold update_vmi. eexists. split; [done|].
        cbn [trace with_trace with_inst inst].
        rewrite fetched_app, released_app, Hbal.
        split; [by rewrite app_nil_r|]. by destruct (inst s). }
    by exists s, s'.
Qed.

Lemma single_slot_holds_one_buffer_witness :
  ∃ s s',
    slot_session fresh_buffers [0x1000; 0x2000; 0x2000; 0x3000]%N
      (boot (guest false 0)) = Some (tt, s)
    ∧ fetched (trace s) = released (trace s) ++ slot_buffer (inst s)
    ∧ SingleSlot.memory_cache_destroy s = Some (tt, s')
    ∧ fetched (trace s') = released (trace s').
Proof.
  destruct (single_slot_holds_one_buffer fresh_buffers (guest false 0)
              [0x1000; 0x2000; 0x2000; 0x3000]%N)
    as (s & s' & Hrun & Hbal & Hd & Hbal' & _).
  - intros v tr paddr len. unfold fresh_buffers. lia.
  - reflexivity.
  - repeat constructor; discriminate.
  - by exists s, s'.
Defined.

(** X13. In the single-slot build [memory_cache_remove] releases the buffer
    of the stored key but leaves key and pointer in the slot: the next
    insert of that key returns the released buffer without a fetch, and
    [memory_cache_destroy] then releases it a second time. *)
Theorem single_slot_remove_keeps_pointer (s : state) (p : N) :
  is_Some (release_data_callback s) →
  p = vmi.last_used_page_key (inst s) →
  vmi.last_used_page (inst s) ≠ 0%N →
  let page := vmi.last_used_page (inst s) in
  let len := vmi.page_size (inst s) in
  ∃ s1,
    SingleSlot.memory_cache_remove p s = Some (tt, s1)
    ∧ inst s1 = inst s
    ∧ trace s1 = trace s ++ [Release page len]
    ∧ SingleSlot.memory_cache_insert p s1 = Some (page, s1)
    ∧ (p ≠ 0%N →
       ∃ s2, SingleSlot.memory_cache_destroy s1 = Some (tt, s2)
             ∧ trace s2 = trace s ++ [Release page len; Release page len]).
Proof.
  intros [r Hr] Hkey Hpage. cbn zeta.
  apply N.eqb_neq in Hpage. apply N.eqb_eq in Hkey.
  unfold SingleSlot.memory_cache_remove, bind, get_vmi.
  rewrite Hkey, Hpage. cbn [negb andb].
  erewrite release_data_eq by done.
  eexists. split; [done|]. split; [done|]. split; [done|].
  split.
  - unfold SingleSlot.memory_cache_insert, bind, get_vmi.
    cbn [inst with_trace]. by rewrite Hkey, Hpage.
  - intros Hnz. apply N.eqb_eq in Hkey. subst p. apply N.eqb_neq in Hnz.
    unfold SingleSlot.memory_cache_destroy, bind, get_vmi.
    cbn [inst with_trace]. rewrite Hnz, Hpage. cbn [negb andb].
    erewrite release_data_eq by done. unfold update_vmi.
    eexists. split; [done|]. cbn. by rewrite <- app_assoc.
Qed.

Lemma single_slot_remove_keeps_pointer_witness :
  ∃ s1 s2,
    SingleSlot.memory_cache_remove 0x2000 (slot 0x2000 0xB000)
    = Some (tt, s1)
    ∧ SingleSlot.memory_cache_insert 0x2000 s1 = Some (0xB000%N, s1)
    ∧ SingleSlot.memory_cache_destroy s1 = Some (tt, s2)
    ∧ trace s2 = [Fetch 0x2000 0x1000 0xB000; Release 0xB000 0x1000;
                  Release 0xB000 0x1000].
Proof.
  destruct (single_slot_remove_keeps_pointer (slot 0x2000 0xB000) 0x2000)
    as (s1 & Hrm & _ & _ & Hins & Hd).
  - by eexists.
  - reflexivity.
  - discriminate.
  - destruct Hd as (s2 & Hd & Htr); [discriminate|].
    exists s1, s2. split; [exact Hrm|]. split; [exact Hins|].
    split; [exact Hd|]. exact Htr.
Defined.
